(** * hotel_services: the Cloud Functions of [functions/src/index.ts]

    The file embeds the two entry points of the repository,

    - [filterService] (the query "which hotels offer all of these services"),
    - [hotelChanges]  (the Firestore trigger that mirrors a hotel document
      into the relational tables),

    together with a model of the Supabase tables they talk to, and proves
    the properties stated for them.

    The store is external to the repository.  Its model follows the calls
    the code makes ([from(..).select/insert/upsert/delete]); every call may
    also fail, either by resolving to [{ data: null, error }] or by
    rejecting, as chosen by the environment.

    The client is taken as given: the definitions start where
    [createClient] has returned, and the faults they take are the store's
    answers to the calls made through that client.  A project id whose URL
    [createClient] refuses is outside the embedding; what is stated about
    the value a function returns is therefore stated for the runs that
    return one, or for given answers of the store. *)

From Stdlib Require Import String List ZArith Bool Lia PeanoNat.
Import ListNotations.

Open Scope string_scope.
Open Scope Z_scope.
Open Scope list_scope.

Set Implicit Arguments.

(** ** JavaScript bits *)

(** [new Date().toISOString()] *)
Definition Time := string.

(** [!s] for a string: only the empty string is falsy. *)
Definition falsy (s : string) : bool := (s =? "")%string.

(** [arr.includes(x)] on an array of strings (strict equality). *)
Definition includes (arr : list string) (x : string) : bool :=
  existsb (fun y => (y =? x)%string) arr.

(** [[...new Set(arr)]]: the distinct elements, each at the place of its
    first occurrence. *)
Fixpoint spread_Set (arr : list string) : list string :=
  match arr with
  | [] => []
  | x :: rest => x :: filter (fun y => negb (y =? x)%string) (spread_Set rest)
  end.

(** [arr[i] = v] for an index inside the array. *)
Fixpoint assign {A} (i : nat) (v : A) (arr : list A) : list A :=
  match arr, i with
  | [], _ => []
  | _ :: rest, O => v :: rest
  | x :: rest, S j => x :: assign j v rest
  end.

(** ** The relational store *)

Module Supabase.

(** Modelled from the spec: the type [Database] of [database.types.ts]
    is not among the sources.  The three tables are those the spec lists:
    [hotels(hotel_id PK, updated_at)], [services(id PK, name UNIQUE)],
    [hotels_services(hotel_id FK, service_id FK, updated_at)]. *)
Record hotels_row := {
  hotel_id : string;
  updated_at : Time }.

Record services_row := {
  id : Z;
  name : string }.

Record hotels_services_row := {
  hs_hotel_id : string;
  hs_service_id : Z;
  hs_updated_at : Time }.

(** The spec does not say which columns an [upsert] into
    [hotels_services] conflicts on.  [pkey_hotel_service = true] is the
    composite key (hotel_id, service_id); with [false] the table has no
    key among the written columns and an upsert is a plain insert. *)
Record Schema := {
  pkey_hotel_service : bool }.

Record Database := {
  schema : Schema;
  hotels : list hotels_row;
  services : list services_row;
  hotels_services : list hotels_services_row;
  (** next value of the identity column [services.id] *)
  services_id_seq : Z }.

Definition with_hotels (db : Database) (t : list hotels_row) : Database :=
  {| schema := schema db; hotels := t; services := services db;
     hotels_services := hotels_services db;
     services_id_seq := services_id_seq db |}.

Definition with_hotels_services (db : Database)
    (t : list hotels_services_row) : Database :=
  {| schema := schema db; hotels := hotels db; services := services db;
     hotels_services := t;
     services_id_seq := services_id_seq db |}.

(** [{ message, stack }] of a failed call *)
Record PostgrestError := {
  message : string;
  stack : option string }.

(** What a call resolves to: [{ data, error }]. *)
Record PostgrestResponse (A : Type) := {
  data : option A;
  error : option PostgrestError }.

Definition success {A} (a : A) : PostgrestResponse A :=
  {| data := Some a; error := None |}.

(** A call without [select] succeeds with [data: null]. *)
Definition no_content {A} : PostgrestResponse A :=
  {| data := None; error := None |}.

Definition failure {A} (e : PostgrestError) : PostgrestResponse A :=
  {| data := None; error := Some e |}.

(** How the environment makes a call fail: the promise resolves to
    [{ data: null, error }], or it rejects. *)
Inductive Fault :=
| ErrorResult (e : PostgrestError)
| Rejects (reason : string).

(** The calls of [index.ts], as sent to the store. *)
Inductive Request :=
| hotels_select_in (names : list string)
| hotels_upsert (row : hotels_row)
| hotels_delete (hotelId : string)
| hotels_services_delete (hotelId : string)
| hotels_services_upsert (row : hotels_services_row)
| services_select (service : string)
| services_insert (service : string).

(** *** What each call does to the tables *)

(** [from("hotels").upsert([row])]: conflict on the key [hotel_id]. *)
Definition do_hotels_upsert (row : hotels_row) (db : Database) : Database :=
  let same r := (hotel_id r =? hotel_id row)%string in
  with_hotels db
    (if existsb same (hotels db)
     then map (fun r => if same r then row else r) (hotels db)
     else hotels db ++ [row]).

(** [from("hotels").delete().match({ hotel_id })] *)
Definition do_hotels_delete (hotelId : string) (db : Database) : Database :=
  with_hotels db
    (filter (fun r => negb (hotel_id r =? hotelId)%string) (hotels db)).

(** [from("hotels_services").delete().match({ hotel_id })] *)
Definition do_hotels_services_delete (hotelId : string) (db : Database)
    : Database :=
  with_hotels_services db
    (filter (fun r => negb (hs_hotel_id r =? hotelId)%string)
            (hotels_services db)).

(** [from("hotels_services").upsert([row])] *)
Definition do_hotels_services_upsert (row : hotels_services_row)
    (db : Database) : Database :=
  let same r := ((hs_hotel_id r =? hs_hotel_id row)%string
                 && (hs_service_id r =? hs_service_id row))%bool in
  with_hotels_services db
    (if (pkey_hotel_service (schema db) && existsb same (hotels_services db))%bool
     then map (fun r => if same r then row else r) (hotels_services db)
     else hotels_services db ++ [row]).

(** [from("services").select("id").eq("name", service)]: the ids of the
    rows whose name is exactly [service]. *)
Definition do_services_select (service : string) (db : Database) : list Z :=
  map id (filter (fun s => (name s =? service)%string) (services db)).

(** The error of a violated [UNIQUE] constraint. *)
Definition unique_violation : PostgrestError :=
  {| message := "duplicate key value violates unique constraint";
     stack := None |}.

(** Modelled from the spec: [services.name] is [UNIQUE] and [services.id]
    is assigned by the store.
    [from("services").insert([{ name }]).select("id")] is refused when the
    name is taken; else a row with the next id is appended and its id is
    returned. *)
Definition do_services_insert (service : string) (db : Database)
    : PostgrestResponse (list Z) * Database :=
  if existsb (fun s => (name s =? service)%string) (services db)
  then (failure unique_violation, db)
  else (success [services_id_seq db],
        {| schema := schema db; hotels := hotels db;
           services := services db
                         ++ [{| id := services_id_seq db; name := service |}];
           hotels_services := hotels_services db;
           services_id_seq := services_id_seq db + 1 |}).

(** One element of the embedded array
    [hotels_services!inner(hotel_id, service_id, services!inner(name))]. *)
Record embedded_services := {
  e_name : string }.

Record embedded_hotels_services := {
  e_hotel_id : string;
  e_service_id : Z;
  e_services : embedded_services }.

Record selected_hotel := {
  s_hotel_id : string;
  s_hotels_services : list embedded_hotels_services }.

(** The service a [service_id] refers to. *)
Definition service_of (db : Database) (serviceId : Z) : option services_row :=
  find (fun s => id s =? serviceId) (services db).

(** The rows of [hotels_services] embedded under one hotel: its own
    associations, joined to their service, the service's name among
    [names]. *)
Definition embed (names : list string) (db : Database) (hotelId : string)
    : list embedded_hotels_services :=
  flat_map
    (fun a =>
       if (hs_hotel_id a =? hotelId)%string then
         match service_of db (hs_service_id a) with
         | Some s =>
             if includes names (name s)
             then [{| e_hotel_id := hs_hotel_id a;
                      e_service_id := hs_service_id a;
                      e_services := {| e_name := name s |} |}]
             else []
         | None => []
         end
       else [])
    (hotels_services db).

(** [from("hotels").select("hotel_id, hotels_services!inner(..,
    services!inner(name))").in("hotels_services.services.name", names)]:
    the inner joins drop a hotel with nothing embedded. *)
Definition do_hotels_select_in (names : list string) (db : Database)
    : list selected_hotel :=
  filter (fun h => negb (Nat.eqb (length (s_hotels_services h)) 0))
    (map (fun h => {| s_hotel_id := hotel_id h;
                      s_hotels_services := embed names db (hotel_id h) |})
         (hotels db)).

End Supabase.
Import Supabase.

(** ** The runtime: exceptions, the log, promises *)

(** [class ServiceError extends Error] *)
Module ServiceError.
Record t := {
  message : string;
  code : Z;
  stack : option string }.

(** [constructor(message, public code = 422, stack?)] *)
Definition new (message : string) (code : option Z) (stack : option string) : t :=
  {| message := message;
     code := match code with Some c => c | None => 422 end;
     stack := stack |}.

(** [toJSON()] has the same three fields. *)
Definition toJSON (e : t) : Z * string * option string :=
  (code e, message e, stack e).
End ServiceError.

(** What a [throw] or a rejected promise carries. *)
Inductive Exn :=
| Thrown_ServiceError (e : ServiceError.t)
| Thrown_TypeError (msg : string)
| Rejection (reason : string).

(** One call of [logger.error]. *)
Record LogEntry := {
  l_message : string;
  l_error : option Exn }.

(** One per-service promise chain of [hotelChanges] (lines 187-220): the
    request it waits for, with the variables of its closure ([id],
    [service], the row of the upsert), or how it has ended. *)
Inductive Chain :=
| AwaitSelect (id service : string)
| AwaitInsert (id service : string)
| AwaitUpsert (service : string) (row : hotels_services_row)
| Fulfilled
| Rejected (reason : Exn).

Definition settled (c : Chain) : bool :=
  match c with
  | Fulfilled | Rejected _ => true
  | _ => false
  end.

(** What the store has been asked, and which calls it failed. *)
Inductive TraceEvent :=
| Sent (r : Request)
| Failed (r : Request).

Record World := {
  db : Database;
  trace : list TraceEvent;
  log : list LogEntry;
  (** the promise chains started so far, by number *)
  chains : list Chain }.

(** Code that may throw, over the world. *)
Definition M (A : Type) : Type := World -> (Exn + A) * World.

Definition ret {A} (a : A) : M A := fun w => (inr a, w).

Definition bind {A B} (m : M A) (k : A -> M B) : M B :=
  fun w =>
    match m w with
    | (inr a, w') => k a w'
    | (inl e, w') => (inl e, w')
    end.

Definition throw {A} (e : Exn) : M A := fun w => (inl e, w).

(** [try { body } catch (error) { handler(error) }] *)
Definition try_catch {A} (body : M A) (handler : Exn -> M A) : M A :=
  fun w =>
    match body w with
    | (inl e, w') => handler e w'
    | r => r
    end.

Declare Scope js_scope.
Delimit Scope js_scope with js.
Notation "x <- c1 ;; c2" := (bind c1 (fun x => c2))
  (at level 100, c1 at next level, right associativity) : js_scope.
Notation "c1 ;;; c2" := (bind c1 (fun _ => c2))
  (at level 100, right associativity) : js_scope.
Open Scope js_scope.

Definition record (ev : TraceEvent) : M unit :=
  fun w => (inr tt, {| db := db w; trace := trace w ++ [ev];
                       log := log w; chains := chains w |}).

(** [logger.error(message, error)] *)
Definition logger_error (message : string) (err : option Exn) : M unit :=
  fun w => (inr tt, {| db := db w; trace := trace w;
                       log := log w ++ [{| l_message := message; l_error := err |}];
                       chains := chains w |}).

(** The request leaves. *)
Definition send (r : Request) : M unit := record (Sent r).

(** The store answers request [r]: with the environment's fault, or else
    with what [effect] does to the tables. *)
Definition settle {A} (r : Request) (fault : option Fault)
    (effect : Database -> PostgrestResponse A * Database)
    : M (PostgrestResponse A) :=
  match fault with
  | Some (Rejects reason) => record (Failed r) ;;; throw (Rejection reason)
  | Some (ErrorResult e) => record (Failed r) ;;; ret (failure e)
  | None =>
      fun w =>
        let (response, db') := effect (db w) in
        (inr response,
         {| db := db';
            trace := trace w ++ match error response with
                                | Some _ => [Failed r]
                                | None => []
                                end;
            log := log w; chains := chains w |})
  end.

(** [await query]: sent and answered in one go. *)
Definition await {A} (r : Request) (fault : option Fault)
    (effect : Database -> PostgrestResponse A * Database)
    : M (PostgrestResponse A) :=
  send r ;;; settle r fault effect.

(** The answer of the store to each request of a promise chain. *)
Definition answer_select (service : string) (d : Database)
    : PostgrestResponse (list Z) * Database :=
  (success (do_services_select service d), d).

Definition answer_upsert (row : hotels_services_row) (d : Database)
    : PostgrestResponse unit * Database :=
  (no_content, do_hotels_services_upsert row d).

(** A value an array handed to [Promise.all] may hold. *)
Inductive JSValue :=
| undefined
| thenable (chain : nat).

(** How an [async] function stands: it has returned, or it is suspended
    in an [await] on promise chains. *)
Inductive Completion :=
| Returned
| Suspended (on : list nat).

(** [await Promise.all(values)]: waits for the thenables among the values;
    any other value counts as already resolved. *)
Definition Promise_all (values : list JSValue) : Completion :=
  match flat_map (fun v => match v with
                           | thenable c => [c]
                           | undefined => []
                           end) values with
  | [] => Returned
  | on => Suspended on
  end.

(** [arr.map(f)] for a callback with effects, left to right. *)
Fixpoint array_map {A B} (f : A -> M B) (arr : list A) : M (list B) :=
  match arr with
  | [] => ret []
  | x :: rest => y <- f x ;; ys <- array_map f rest ;; ret (y :: ys)
  end.

(** ** [index.ts] *)

(** *** [filterService], lines 65-108 *)

(** An element of [hotelData] (lines 96-99). *)
Record HotelData := {
  hd_hotel_id : string;
  hd_services : list string }.

(** Lines 94-105: map each selected hotel to its service names, keep those
    for which [every] requested service is among them. *)
Definition hotelData (services : list string) (data : list selected_hotel)
    : list HotelData :=
  filter
    (fun hotel =>
       forallb (fun service => includes (hd_services hotel) service) services)
    (map
       (fun hotel =>
          {| hd_hotel_id := s_hotel_id hotel;
             hd_services :=
               map (fun service => e_name (e_services service))
                   (s_hotels_services hotel) |})
       data).

Definition answer_query (services : list string) (d : Database)
    : PostgrestResponse (list selected_hotel) * Database :=
  (success (do_hotels_select_in services d), d).

Definition filterService (services : list string)
    (supabaseKey supabaseProjectId : string) (fault : option Fault)
    : M (list string) :=
  if Nat.eqb (length services) 0 then
    throw (Thrown_ServiceError
             (ServiceError.new "No services provided" (Some 422) None))
  else if (falsy supabaseKey || falsy supabaseProjectId)%bool then
    throw (Thrown_ServiceError
             (ServiceError.new "Supabase configuration is not set" (Some 422) None))
  else
    response <- await (hotels_select_in services) fault (answer_query services) ;;
    match error response with
    | Some error =>
        throw (Thrown_ServiceError
                 (ServiceError.new (message error) (Some 500) (stack error)))
    | None =>
        match data response with
        | None =>
            throw (Thrown_TypeError "Cannot read properties of null (reading 'map')")
        | Some data =>
            ret (spread_Set (map hd_hotel_id (hotelData services data)))
        end
    end.

(** *** [hotelChanges], lines 145-227 *)

(** The document of a hotel, [{ services: string[], ... }].  Firestore
    does not enforce the shape: [document.services] is [undefined] for a
    document without the field. *)
Record Document := {
  doc_services : option (list string) }.

(** [event.data]: the snapshots before and after the write; [after] has no
    data when the document was deleted. *)
Record Change := {
  before : option Document;
  after : option Document }.

Record FirestoreEvent := {
  event_data : option Change;
  params_hotelId : string }.

(** Lines 206-218: the callback on the answer to the insert of a new
    service. *)
Definition then_response (id service : string) (now : Time)
    (response : PostgrestResponse (list Z)) : M Chain :=
  match data response with
  | None => ret Fulfilled
  | Some [] =>
      throw (Thrown_TypeError "Cannot read properties of undefined (reading 'id')")
  | Some (newId :: _) =>
      let row := {| hs_hotel_id := id; hs_service_id := newId;
                    hs_updated_at := now |} in
      send (hotels_services_upsert row) ;;;
      ret (AwaitUpsert service row)
  end.

(** Lines 191-220: the callback on the answer to the lookup by name. *)
Definition then_existingService (id service : string) (now : Time)
    (existingService : PostgrestResponse (list Z)) : M Chain :=
  match data existingService with
  | Some (existingServiceId :: _) =>
      let row := {| hs_hotel_id := id; hs_service_id := existingServiceId;
                    hs_updated_at := now |} in
      send (hotels_services_upsert row) ;;;
      ret (AwaitUpsert service row)
  | _ =>
      send (services_insert service) ;;;
      ret (AwaitInsert id service)
  end.

(** The store answers the request a chain waits for, at time [now], and the
    chain runs its callback. *)
Definition resume (fault : option Fault) (now : Time) (c : Chain) : M Chain :=
  match c with
  | AwaitSelect id service =>
      existingService <- settle (services_select service) fault
                                (answer_select service) ;;
      then_existingService id service now existingService
  | AwaitInsert id service =>
      response <- settle (services_insert service) fault
                         (do_services_insert service) ;;
      then_response id service now response
  | AwaitUpsert service row =>
      settle (hotels_services_upsert row) fault (answer_upsert row) ;;;
      ret Fulfilled
  | Fulfilled => ret Fulfilled
  | Rejected reason => ret (Rejected reason)
  end.

(** A new promise chain; its number. *)
Definition spawn (c : Chain) : M nat :=
  fun w => (inr (length (chains w)),
            {| db := db w; trace := trace w; log := log w;
               chains := chains w ++ [c] |}).

(** Lines 186-221: the callback of [document.services.map].  It starts the
    chain (the lookup is sent) and, its body being a block without
    [return], evaluates to [undefined]. *)
Definition per_service (id service : string) : M JSValue :=
  send (services_select service) ;;;
  spawn (AwaitSelect id service) ;;;
  ret undefined.

Definition answer_hotels_upsert (row : hotels_row) (d : Database)
    : PostgrestResponse unit * Database :=
  (no_content, do_hotels_upsert row d).

Definition answer_hotels_delete (id : string) (d : Database)
    : PostgrestResponse unit * Database :=
  (no_content, do_hotels_delete id d).

Definition answer_hotels_services_delete (id : string) (d : Database)
    : PostgrestResponse unit * Database :=
  (no_content, do_hotels_services_delete id d).

(** The handler.  [now] is the clock at line 182; [fault1] and [fault2]
    are the environment's choices for its two awaited calls. *)
Definition hotelChanges (supabaseKey supabaseProjectId : string)
    (event : FirestoreEvent) (now : Time) (fault1 fault2 : option Fault)
    : M Completion :=
  match event_data event with
  | None => ret Returned
  | Some change =>
      let apiKey := supabaseKey in
      let supabaseUrl :=
        ("https://" ++ supabaseProjectId ++ ".supabase.co")%string in
      if (falsy apiKey || falsy supabaseUrl)%bool then
        logger_error "Supabase configuration is not set" None ;;;
        ret Returned
      else
        let id := params_hotelId event in
        match after change with
        | None =>
            (* delete *)
            try_catch
              (await (hotels_delete id) fault1 (answer_hotels_delete id) ;;;
               await (hotels_services_delete id) fault2
                     (answer_hotels_services_delete id) ;;;
               ret tt)
              (fun error => logger_error "error" (Some error)) ;;;
            ret Returned
        | Some document =>
            try_catch
              (await (hotels_upsert {| hotel_id := id; updated_at := now |})
                     fault1
                     (answer_hotels_upsert {| hotel_id := id; updated_at := now |}) ;;;
               await (hotels_services_delete id) fault2
                     (answer_hotels_services_delete id) ;;;
               match doc_services document with
               | None =>
                   throw (Thrown_TypeError
                            "Cannot read properties of undefined (reading 'map')")
               | Some services =>
                   values <- array_map (per_service id) services ;;
                   ret (Promise_all values)
               end)
              (fun error => logger_error "error" (Some error) ;;; ret Returned)
        end
  end.

(** *** After the handler: the promise chains settle *)

(** The environment lets chain [ev_chain] hear from the store, at time
    [ev_now], possibly with a fault. *)
Record Event := {
  ev_chain : nat;
  ev_fault : option Fault;
  ev_now : Time }.

Definition with_chains (w : World) (cs : list Chain) : World :=
  {| db := db w; trace := trace w; log := log w; chains := cs |}.

(** An exception in a callback rejects the chain; nothing catches it. *)
Definition step (e : Event) (w : World) : World :=
  match nth_error (chains w) (ev_chain e) with
  | None => w
  | Some c =>
      match resume (ev_fault e) (ev_now e) c w with
      | (inr c', w') => with_chains w' (assign (ev_chain e) c' (chains w'))
      | (inl reason, w') =>
          with_chains w' (assign (ev_chain e) (Rejected reason) (chains w'))
      end
  end.

Definition run (schedule : list Event) (w : World) : World :=
  fold_left (fun w e => step e w) schedule w.

(** No chain is waiting any more. *)
Definition quiescent (w : World) : bool := forallb settled (chains w).

(** ** Notions used to state the properties *)

(** The names of the services hotel [hotelId] is associated with. *)
Definition association_names (d : Database) (hotelId : string) : list string :=
  flat_map
    (fun a =>
       if (hs_hotel_id a =? hotelId)%string then
         match service_of d (hs_service_id a) with
         | Some s => [name s]
         | None => []
         end
       else [])
    (hotels_services d).

(** The ids of the services hotel [hotelId] is associated with. *)
Definition associations (d : Database) (hotelId : string) : list Z :=
  map hs_service_id
      (filter (fun a => (hs_hotel_id a =? hotelId)%string) (hotels_services d)).

(** The event of a write that leaves document [{ services }] for the
    hotel, and the event of the deletion of its document. *)
Definition written (hotelId : string) (services : list string) : FirestoreEvent :=
  {| event_data := Some {| before := None;
                           after := Some {| doc_services := Some services |} |};
     params_hotelId := hotelId |}.

Definition deleted (hotelId : string) : FirestoreEvent :=
  {| event_data := Some {| before := None; after := None |};
     params_hotelId := hotelId |}.

(** The requests sent to the store, in order. *)
Definition sent_in (tr : list TraceEvent) : list Request :=
  flat_map (fun ev => match ev with Sent r => [r] | Failed _ => [] end) tr.

Definition sent (w : World) : list Request := sent_in (trace w).

(** The calls the store failed. *)
Definition failed_in (tr : list TraceEvent) : list Request :=
  flat_map (fun ev => match ev with Failed r => [r] | Sent _ => [] end) tr.

Definition failed (w : World) : list Request := failed_in (trace w).

(** The name lookup of a promise chain, answered without fault: the lookup
    by name and, when it finds nothing, the insert.  The chain then waits
    for the upsert of the row that holds the id it resolved the name to. *)
Definition resolve (id service : string) (now : Time) : M Chain :=
  c <- resume None now (AwaitSelect id service) ;;
  match c with
  | AwaitInsert _ _ => resume None now c
  | _ => ret c
  end.

(** A chain that has left the name lookup behind: it has sent its upsert,
    or it has ended without one. *)
Definition resolved (c : Chain) : bool :=
  match c with
  | AwaitSelect _ _ | AwaitInsert _ _ => false
  | _ => true
  end.

Definition is_upsert (r : Request) : bool :=
  match r with
  | hotels_services_upsert _ => true
  | _ => false
  end.

(** How many upserts into [hotels_services] have been sent. *)
Definition upserts_sent (w : World) : nat :=
  length (filter is_upsert (sent w)).

(** The constraints of the table [services]: [id] is a key, [name] is
    unique, and the identity sequence is ahead of the ids in use. *)
Definition constraints (d : Database) : Prop :=
  NoDup (map id (services d))
  /\ NoDup (map name (services d))
  /\ forall s, In s (services d) -> id s < services_id_seq d.

(** No event of the schedule carries a fault. *)
Definition fault_free (schedule : list Event) : Prop :=
  forall e, In e schedule -> ev_fault e = None.

(** One answer of the store to chain [c], on tables [d]: the tables and
    the chain afterwards, and what is added to the trace. *)
Inductive transition (now : Time) (d : Database)
    : option Fault -> Chain -> Database -> Chain -> list TraceEvent -> Prop :=
| select_found id service existingServiceId rest :
    do_services_select service d = existingServiceId :: rest ->
    let row := {| hs_hotel_id := id; hs_service_id := existingServiceId;
                  hs_updated_at := now |} in
    transition now d None (AwaitSelect id service)
      d (AwaitUpsert service row) [Sent (hotels_services_upsert row)]
| select_empty id service :
    do_services_select service d = [] ->
    transition now d None (AwaitSelect id service)
      d (AwaitInsert id service) [Sent (services_insert service)]
| select_error id service e :
    transition now d (Some (ErrorResult e)) (AwaitSelect id service)
      d (AwaitInsert id service)
      [Failed (services_select service); Sent (services_insert service)]
| select_rejects id service reason :
    transition now d (Some (Rejects reason)) (AwaitSelect id service)
      d (Rejected (Rejection reason)) [Failed (services_select service)]
| insert_taken id service :
    existsb (fun s => (name s =? service)%string) (services d) = true ->
    transition now d None (AwaitInsert id service)
      d Fulfilled [Failed (services_insert service)]
| insert_new id service :
    existsb (fun s => (name s =? service)%string) (services d) = false ->
    let row := {| hs_hotel_id := id; hs_service_id := services_id_seq d;
                  hs_updated_at := now |} in
    transition now d None (AwaitInsert id service)
      (snd (do_services_insert service d)) (AwaitUpsert service row)
      [Sent (hotels_services_upsert row)]
| insert_error id service e :
    transition now d (Some (ErrorResult e)) (AwaitInsert id service)
      d Fulfilled [Failed (services_insert service)]
| insert_rejects id service reason :
    transition now d (Some (Rejects reason)) (AwaitInsert id service)
      d (Rejected (Rejection reason)) [Failed (services_insert service)]
| upsert_done service row :
    transition now d None (AwaitUpsert service row)
      (do_hotels_services_upsert row d) Fulfilled []
| upsert_error service row e :
    transition now d (Some (ErrorResult e)) (AwaitUpsert service row)
      d Fulfilled [Failed (hotels_services_upsert row)]
| upsert_rejects service row reason :
    transition now d (Some (Rejects reason)) (AwaitUpsert service row)
      d (Rejected (Rejection reason)) [Failed (hotels_services_upsert row)]
| settled_stays fault c :
    settled c = true ->
    transition now d fault c d c [].

(** The effect of a call on the tables, unless the call fails. *)
Definition unless_failed (fault : option Fault) (effect : Database -> Database)
    (d : Database) : Database :=
  match fault with
  | None => effect d
  | Some _ => d
  end.

Definition rejects (fault : option Fault) : bool :=
  match fault with
  | Some (Rejects _) => true
  | _ => false
  end.

(** *** The invariant of a reconciliation

    While the chains started for document [names] of hotel [id] are
    running, and no other writer is at work. *)

(** The hotel has a row in [hotels_services] for the service named [n]. *)
Definition associated (id n : string) (d : Database) : Prop :=
  exists a,
    In a (hotels_services d) /\ hs_hotel_id a = id
    /\ In {| Supabase.id := hs_service_id a; name := n |} (services d).

(** The chain works for this hotel and a name of the document; the id a
    waiting upsert holds is the id of a row with the chain's name. *)
Definition chain_ok (id : string) (names : list string) (d : Database)
    (c : Chain) : Prop :=
  match c with
  | AwaitSelect id' n | AwaitInsert id' n => id' = id /\ In n names
  | AwaitUpsert n row =>
      In n names /\ hs_hotel_id row = id
      /\ In {| Supabase.id := hs_service_id row; name := n |} (services d)
  | Fulfilled | Rejected _ => True
  end.

(** The chain will still bring the association with [n] about: it has not
    looked the name up yet, or it has found or inserted it, or it is about
    to insert it and no one else has. *)
Definition pending_for (n : string) (d : Database) (c : Chain) : Prop :=
  match c with
  | AwaitSelect _ n' => n' = n
  | AwaitInsert _ n' => n' = n /\ forall s, In s (services d) -> name s <> n
  | AwaitUpsert n' _ => n' = n
  | Fulfilled | Rejected _ => False
  end.

Record reconciling (id : string) (names : list string) (w : World) : Prop := {
  rec_constraints : constraints (db w);
  rec_rows :
    forall a, In a (hotels_services (db w)) -> hs_hotel_id a = id ->
      exists n, In n names
        /\ In {| Supabase.id := hs_service_id a; name := n |} (services (db w));
  rec_chains :
    forall i c, nth_error (chains w) i = Some c -> chain_ok id names (db w) c;
  rec_covered :
    forall n, In n names ->
      associated id n (db w)
      \/ exists i c, nth_error (chains w) i = Some c /\ pending_for n (db w) c }.

(** *** Worlds used as examples *)

Definition empty_db : Database :=
  {| schema := {| pkey_hotel_service := true |};
     hotels := []; services := []; hotels_services := [];
     services_id_seq := 1 |}.

Definition empty_world : World :=
  {| db := empty_db; trace := []; log := []; chains := [] |}.

(** Hotel H1 offers wifi and pool. *)
Definition H1_db : Database :=
  {| schema := {| pkey_hotel_service := true |};
     hotels := [{| hotel_id := "H1"; updated_at := "2024-01-01T00:00:00.000Z" |}];
     services := [{| id := 1; name := "wifi" |}; {| id := 2; name := "pool" |}];
     hotels_services :=
       [{| hs_hotel_id := "H1"; hs_service_id := 1;
           hs_updated_at := "2024-01-01T00:00:00.000Z" |};
        {| hs_hotel_id := "H1"; hs_service_id := 2;
           hs_updated_at := "2024-01-01T00:00:00.000Z" |}];
     services_id_seq := 3 |}.

Definition H1_world : World :=
  {| db := H1_db; trace := []; log := []; chains := [] |}.

Definition timeout_error : PostgrestError :=
  {| message := "canceling statement due to statement timeout";
     stack := Some "at PostgrestBuilder.then" |}.

(** The documents of H1 and H2, both listing the new service "spa", are
    written one after the other; then the store answers the two chains in
    turn.  No call is made to fail by the environment. *)
Definition race_start : World :=
  snd (hotelChanges "key" "project" (written "H2" ["spa"])
         "2024-03-03T00:00:01.000Z" None None
         (snd (hotelChanges "key" "project" (written "H1" ["spa"])
                 "2024-03-03T00:00:00.000Z" None None empty_world))).

Definition answer (chain : nat) : Event :=
  {| ev_chain := chain; ev_fault := None;
     ev_now := "2024-03-03T00:00:02.000Z" |}.

Definition race_schedule : list Event :=
  [answer 0; answer 1; answer 0; answer 1; answer 0].

Definition race_end : World := run race_schedule race_start.

(** The scenario of the spec: the document [{ services: ["wifi", "pool"] }]
    is written for hotel H1 in an empty store, and the store answers the
    two chains in turn. *)
Definition scenario_written : World :=
  run [answer 0; answer 1; answer 0; answer 1; answer 0; answer 1]
      (snd (hotelChanges "key" "project" (written "H1" ["wifi"; "pool"])
              "2024-03-03T00:00:00.000Z" None None empty_world)).

(** ... and then the document is deleted. *)
Definition scenario_deleted : World :=
  snd (hotelChanges "key" "project" (deleted "H1")
         "2024-03-03T00:00:03.000Z" None None scenario_written).

(** ** The entry points around [filterService] *)

(** An element of the array a filter request is answered with,
    [{ hotel_id: hotelId }] (lines 122 and 141). *)
Record hotel_id_object := {
  o_hotel_id : string }.

(** What [response.send] is given. *)
Inductive Body :=
| json_hotels (l : list hotel_id_object)
| json_ServiceError (json : Z * string * option string).

(** The Express response once [send] has been called: the status (200
    unless [response.status] has set another) and the body. *)
Record Response := {
  status : Z;
  body : Body }.

(** [const { services = [] } = request.query] (or [request.data]): the
    default applies when the property is missing.  The property, when
    present, is taken to be an array of strings, as the cast
    [services as string[]] of the code has it; a query with a single
    [services=] value gives a string, and a call whose [request.data] is
    [null] fails at the destructuring: both are outside the embedding. *)
Definition services_or_default (services : option (list string)) : list string :=
  match services with
  | Some l => l
  | None => []
  end.

(** Lines 110-128, [exports.serviceFilterHttp].  A caught value that is not
    a [ServiceError] has no [toJSON]: the call in the argument of [send]
    throws a [TypeError], and nothing is sent. *)
Definition serviceFilterHttp (request_query_services : option (list string))
    (supabaseKey supabaseProjectId : string) (fault : option Fault)
    : M Response :=
  let services := services_or_default request_query_services in
  try_catch
    (unique <- filterService services supabaseKey supabaseProjectId fault ;;
     ret {| status := 200;
            body := json_hotels
                      (map (fun hotelId => {| o_hotel_id := hotelId |}) unique) |})
    (fun error =>
       match error with
       | Thrown_ServiceError serviceError =>
           ret {| status := ServiceError.code serviceError;
                  body := json_ServiceError (ServiceError.toJSON serviceError) |}
       | _ => throw (Thrown_TypeError "serviceError.toJSON is not a function")
       end).

(** Lines 130-143, [exports.serviceFilter]: the callable; what
    [filterService] throws is not caught. *)
Definition serviceFilter (request_data_services : option (list string))
    (supabaseKey supabaseProjectId : string) (fault : option Fault)
    : M (list hotel_id_object) :=
  let services := services_or_default request_data_services in
  unique <- filterService services supabaseKey supabaseProjectId fault ;;
  ret (map (fun hotelId => {| o_hotel_id := hotelId |}) unique).

(** ** Measures on promise chains *)

(** How many answers of the store a chain still needs, at most, to
    settle. *)
Definition answers_needed (c : Chain) : nat :=
  match c with
  | AwaitSelect _ _ => 3
  | AwaitInsert _ _ => 2
  | AwaitUpsert _ _ => 1
  | Fulfilled | Rejected _ => 0
  end.

(** How many requests a chain may still send. *)
Definition requests_left (c : Chain) : nat :=
  match c with
  | AwaitSelect _ _ => 2
  | AwaitInsert _ _ => 1
  | _ => 0
  end.

(** How often the schedule lets chain [i] hear from the store. *)
Definition answers_to (i : nat) (schedule : list Event) : nat :=
  length (filter (fun e => Nat.eqb (ev_chain e) i) schedule).

(** The chain, if still running, works for hotel [id]. *)
Definition works_for (id : string) (c : Chain) : Prop :=
  match c with
  | AwaitSelect id' _ | AwaitInsert id' _ => id' = id
  | AwaitUpsert _ row => hs_hotel_id row = id
  | Fulfilled | Rejected _ => True
  end.

(** The rows of [hotels_services] of one hotel. *)
Definition rows_of (d : Database) (hotelId : string) : list hotels_services_row :=
  filter (fun a => (hs_hotel_id a =? hotelId)%string) (hotels_services d).

(** The event of a write that leaves a document without the field
    [services]. *)
Definition written_without_services (hotelId : string) : FirestoreEvent :=
  {| event_data := Some {| before := None;
                           after := Some {| doc_services := None |} |};
     params_hotelId := hotelId |}.

(** The document the event leaves, if any, has its field [services]. *)
Definition lists_services (event : FirestoreEvent) : bool :=
  match event_data event with
  | Some {| after := Some {| doc_services := None |} |} => false
  | _ => true
  end.

(** An event of a schedule, with its fault. *)
Definition answer_with (chain : nat) (fault : option Fault) : Event :=
  {| ev_chain := chain; ev_fault := fault;
     ev_now := "2024-03-03T00:00:02.000Z" |}.

(** H1 offers wifi and pool, H2 wifi only. *)
Definition H1_H2_db : Database :=
  {| schema := {| pkey_hotel_service := true |};
     hotels := [{| hotel_id := "H1"; updated_at := "2024-01-01T00:00:00.000Z" |};
                {| hotel_id := "H2"; updated_at := "2024-01-02T00:00:00.000Z" |}];
     services := [{| id := 1; name := "wifi" |}; {| id := 2; name := "pool" |}];
     hotels_services :=
       [{| hs_hotel_id := "H1"; hs_service_id := 1;
           hs_updated_at := "2024-01-01T00:00:00.000Z" |};
        {| hs_hotel_id := "H2"; hs_service_id := 1;
           hs_updated_at := "2024-01-02T00:00:00.000Z" |};
        {| hs_hotel_id := "H1"; hs_service_id := 2;
           hs_updated_at := "2024-01-01T00:00:00.000Z" |}];
     services_id_seq := 3 |}.

Definition H1_H2_world : World :=
  {| db := H1_H2_db; trace := []; log := []; chains := [] |}.

(** ** Lists and strings *)

Lemma includes_In (arr : list string) (x : string) :
  includes arr x = true <-> In x arr.
Proof.
  unfold includes. rewrite existsb_exists. split.
  - intros [y [Hy E]]. apply String.eqb_eq in E. now subst.
  - intros H. exists x. split; [assumption | apply String.eqb_refl].
Qed.

Lemma In_spread_Set (arr : list string) (x : string) :
  In x (spread_Set arr) <-> In x arr.
Proof.
  induction arr as [|y rest IH]; simpl; [tauto|].
  rewrite filter_In, IH, negb_true_iff, String.eqb_neq.
  destruct (String.eqb_spec y x) as [->|N]; [tauto|].
  split; [tauto|]. intros [E|H]; [tauto|]. right. split; [assumption|congruence].
Qed.

Lemma NoDup_spread_Set (arr : list string) : NoDup (spread_Set arr).
Proof.
  induction arr as [|y rest IH]; simpl; constructor.
  - rewrite filter_In, String.eqb_refl. simpl. intros [_ H]. discriminate.
  - now apply NoDup_filter.
Qed.

(** ** The query of [filterService] *)

Lemma embed_sound (names : list string) (d : Database) (h : string)
    (e : embedded_hotels_services) :
  In e (embed names d h) ->
  In (e_name (e_services e)) (association_names d h)
  /\ In (e_name (e_services e)) names
  /\ exists a, In a (hotels_services d) /\ hs_hotel_id a = h.
Proof.
  unfold embed, association_names. rewrite !in_flat_map.
  intros [a [Ha He]].
  destruct (String.eqb_spec (hs_hotel_id a) h) as [E|N]; [|contradiction].
  destruct (service_of d (hs_service_id a)) as [s|] eqn:Es; [|contradiction].
  destruct (includes names (name s)) eqn:Ei; [|contradiction].
  destruct He as [<-|[]]. simpl. apply includes_In in Ei.
  split; [|split; [assumption | now exists a]].
  exists a. split; [assumption|].
  rewrite (proj2 (String.eqb_eq _ _) E), Es. now left.
Qed.

Lemma hotelData_sound (services : list string) (d : Database) (hotel : HotelData) :
  In hotel (hotelData services (do_hotels_select_in services d)) ->
  (exists r, In r (hotels d) /\ hotel_id r = hd_hotel_id hotel)
  /\ (exists a, In a (hotels_services d) /\ hs_hotel_id a = hd_hotel_id hotel)
  /\ (forall s, In s services -> In s (association_names d (hd_hotel_id hotel))).
Proof.
  unfold hotelData, do_hotels_select_in.
  rewrite filter_In, in_map_iff. intros [[sel [<- Hsel]] Hall].
  apply filter_In in Hsel. destruct Hsel as [Hsel Hne].
  apply in_map_iff in Hsel. destruct Hsel as [r [<- Hr]]. simpl in *.
  split; [now exists r|]. split.
  - destruct (embed services d (hotel_id r)) as [|e rest] eqn:Ee; [discriminate|].
    destruct (@embed_sound services d (hotel_id r) e) as (_ & _ & H);
      [rewrite Ee; now left | exact H].
  - intros s Hs. rewrite forallb_forall in Hall.
    specialize (Hall s Hs). apply includes_In in Hall.
    apply in_map_iff in Hall. destruct Hall as [e [<- He]].
    now apply embed_sound in He.
Qed.

(** What a successful [filterService] returns: hotels of the table, with
    at least one association, and all the requested names among theirs. *)
Lemma filterService_sound (services : list string) (key pid : string)
    (fault : option Fault) (w w' : World) (result : list string) (h : string) :
  filterService services key pid fault w = (inr result, w') ->
  In h result ->
  (exists r, In r (hotels (db w)) /\ hotel_id r = h)
  /\ (exists a, In a (hotels_services (db w)) /\ hs_hotel_id a = h)
  /\ (forall s, In s services -> In s (association_names (db w) h)).
Proof.
  unfold filterService.
  destruct (Nat.eqb (length services) 0); [discriminate|].
  destruct (falsy key || falsy pid)%bool; [discriminate|].
  destruct fault as [[e|reason]|]; cbn; try discriminate.
  intros E Hin. injection E as <- _.
  apply In_spread_Set, in_map_iff in Hin. destruct Hin as [hotel [<- Hin]].
  now apply hotelData_sound.
Qed.

(** ** [filterService]: results and errors *)

(** C1.  Whatever [filterService] returns for a list of required service
    names, each returned hotel is associated with every one of the names
    (all of them, not just one); the list is not empty, since otherwise
    nothing is returned. *)
Theorem filterService_superset (services : list string) (key pid : string)
    (fault : option Fault) (w w' : World) (result : list string) :
  filterService services key pid fault w = (inr result, w') ->
  services <> []
  /\ forall h, In h result ->
       forall s, In s services -> In s (association_names (db w) h).
Proof.
  intros E. split.
  - intros ->. discriminate E.
  - intros h Hh. intros s Hs. eapply filterService_sound; eassumption.
Qed.

Lemma filterService_superset_witness :
  ["wifi"; "pool"] <> []
  /\ forall h, In h ["H1"] ->
       forall s, In s ["wifi"; "pool"] -> In s (association_names H1_db h).
Proof.
  apply (@filterService_superset ["wifi"; "pool"] "key" "project" None
           H1_world
           {| db := H1_db;
              trace := [Sent (hotels_select_in ["wifi"; "pool"])];
              log := []; chains := [] |}
           ["H1"]).
  reflexivity.
Defined.

(** C4.  On the empty list [filterService] throws the [ServiceError]
    "No services provided" with code 422, and the world is as before: no
    request has been sent to the store. *)
Theorem filterService_empty (key pid : string) (fault : option Fault) (w : World) :
  filterService [] key pid fault w
  = (inl (Thrown_ServiceError
            {| ServiceError.message := "No services provided";
               ServiceError.code := 422;
               ServiceError.stack := None |}),
     w)
  /\ sent (snd (filterService [] key pid fault w)) = sent w.
Proof. split; reflexivity. Qed.

(** C10.  The test for an empty list comes before the test of the
    configuration: with the key or the project id missing, the error is
    "No services provided" for the empty list, and "Supabase configuration
    is not set" only for a list with elements; the code is 422 in both. *)
Theorem filterService_empty_before_configuration (services : list string)
    (key pid : string) (fault : option Fault) (w : World) :
  key = "" \/ pid = "" ->
  fst (filterService services key pid fault w)
  = inl (Thrown_ServiceError
           {| ServiceError.message :=
                match services with
                | [] => "No services provided"
                | _ :: _ => "Supabase configuration is not set"
                end;
              ServiceError.code := 422;
              ServiceError.stack := None |}).
Proof.
  intros H. unfold filterService.
  destruct services as [|s rest]; [reflexivity|]. simpl.
  assert (falsy key || falsy pid = true)%bool as ->; [|reflexivity].
  destruct H as [-> | ->]; [reflexivity | apply orb_true_r].
Qed.

Lemma filterService_empty_before_configuration_witness :
  fst (filterService [] "" "" None H1_world)
  = inl (Thrown_ServiceError
           {| ServiceError.message := "No services provided";
              ServiceError.code := 422;
              ServiceError.stack := None |}).
Proof.
  apply (@filterService_empty_before_configuration [] "" "" None H1_world).
  left. reflexivity.
Defined.

(** C8.  When the store answers the query with an error, [filterService]
    throws a [ServiceError] with code 500, the message of the store's error
    and its stack, if any.  When the key or the project id is missing, it
    throws a [ServiceError] with code 422. *)
Theorem filterService_errors (services : list string) (key pid : string)
    (w : World) :
  (forall e, services <> [] -> key <> "" -> pid <> "" ->
     fst (filterService services key pid (Some (ErrorResult e)) w)
     = inl (Thrown_ServiceError
              {| ServiceError.message := message e;
                 ServiceError.code := 500;
                 ServiceError.stack := stack e |}))
  /\ (forall fault, key = "" \/ pid = "" ->
        exists err,
          fst (filterService services key pid fault w)
          = inl (Thrown_ServiceError err)
          /\ ServiceError.code err = 422).
Proof.
  split.
  - intros e Hs Hk Hp. unfold filterService.
    destruct services as [|s rest]; [contradiction|]. simpl.
    apply String.eqb_neq in Hk, Hp. unfold falsy. rewrite Hk, Hp. reflexivity.
  - intros fault H.
    assert (falsy key || falsy pid = true)%bool as Hc
      by (destruct H as [-> | ->]; [reflexivity | apply orb_true_r]).
    unfold filterService.
    destruct services as [|s rest]; cbn; [|rewrite Hc];
      (eexists; split; [reflexivity|reflexivity]).
Qed.

Lemma filterService_errors_witness :
  fst (filterService ["wifi"] "key" "project"
         (Some (ErrorResult timeout_error)) H1_world)
  = inl (Thrown_ServiceError
           {| ServiceError.message := "canceling statement due to statement timeout";
              ServiceError.code := 500;
              ServiceError.stack := Some "at PostgrestBuilder.then" |})
  /\ exists err,
       fst (filterService ["wifi"] "key" "" None H1_world)
       = inl (Thrown_ServiceError err)
       /\ ServiceError.code err = 422.
Proof.
  destruct (@filterService_errors ["wifi"] "key" "project" H1_world) as [H500 _].
  destruct (@filterService_errors ["wifi"] "key" "" H1_world) as [_ H422].
  split.
  - apply (H500 timeout_error); discriminate.
  - apply (H422 None). right. reflexivity.
Defined.

(** ** One step of a promise chain *)

Lemma nth_error_assign {A} (i j : nat) (x : A) (l : list A) :
  nth_error (assign i x l) j
  = if (Nat.eqb i j && Nat.ltb i (length l))%bool then Some x else nth_error l j.
Proof.
  revert i j. induction l as [|y l IH]; intros i j.
  - replace (Nat.ltb i (length (@nil A))) with false by now destruct i.
    rewrite andb_false_r. now destruct i.
  - destruct i as [|i], j as [|j]; simpl; try reflexivity.
    rewrite IH. reflexivity.
Qed.

Lemma length_assign {A} (i : nat) (x : A) (l : list A) :
  length (assign i x l) = length l.
Proof.
  revert i. induction l as [|y l IH]; intros [|i]; simpl; congruence.
Qed.

Lemma step_idle (e : Event) (w : World) :
  nth_error (chains w) (ev_chain e) = None -> step e w = w.
Proof. unfold step. now intros ->. Qed.

(** [step] is [transition] on the chain the event names. *)
Lemma step_transition (e : Event) (w : World) (c : Chain) :
  nth_error (chains w) (ev_chain e) = Some c ->
  exists d' c' tr,
    transition (ev_now e) (db w) (ev_fault e) c d' c' tr
    /\ step e w = {| db := d'; trace := trace w ++ tr; log := log w;
                     chains := assign (ev_chain e) c' (chains w) |}.
Proof.
  intros H. unfold step. rewrite H.
  destruct c as [id service|id service|service row| |reason];
    destruct (ev_fault e) as [[err|reason']|].
  all: cbn -[do_services_insert do_services_select do_hotels_services_upsert].
  all: try (do 3 eexists; split; [econstructor; reflexivity|];
            unfold with_chains; cbn; rewrite <- ?app_assoc, ?app_nil_r;
            reflexivity).
  - destruct (do_services_select service (db w)) as [|sid rest] eqn:Es; cbn.
    + do 3 eexists. split; [now apply select_empty|].
      unfold with_chains; cbn. now rewrite app_nil_r.
    + do 3 eexists. split; [eapply select_found; eassumption|].
      unfold with_chains; cbn. now rewrite app_nil_r.
  - pose proof (@insert_taken (ev_now e) (db w) id service) as Ht.
    pose proof (@insert_new (ev_now e) (db w) id service) as Hn.
    unfold bind, do_services_insert in *.
    destruct (existsb (fun s => (name s =? service)%string) (services (db w)));
      cbn in *.
    + do 3 eexists. split; [now apply Ht|]. reflexivity.
    + do 3 eexists. split; [now apply Hn|].
      unfold with_chains; cbn. now rewrite app_nil_r.
Qed.

(** ** The handler on a written document *)

Lemma falsy_false (s : string) : s <> "" -> falsy s = false.
Proof. intros H. now apply String.eqb_neq. Qed.

Lemma array_map_per_service (id : string) (services : list string) (w : World) :
  array_map (per_service id) services w
  = (inr (map (fun _ => undefined) services),
     {| db := db w;
        trace := trace w ++ map (fun s => Sent (services_select s)) services;
        log := log w;
        chains := chains w ++ map (AwaitSelect id) services |}).
Proof.
  revert w. induction services as [|s rest IH]; intros w.
  - destruct w. cbn. now rewrite !app_nil_r.
  - cbn. unfold bind at 1. rewrite IH. cbn.
    now rewrite <- !app_assoc.
Qed.

Lemma Promise_all_undefined {A} (l : list A) :
  Promise_all (map (fun _ => undefined) l) = Returned.
Proof.
  unfold Promise_all.
  replace (flat_map _ (map (fun _ => undefined) l)) with (@nil nat);
    [reflexivity|].
  induction l; simpl; congruence.
Qed.

Lemma sent_selects (services : list string) :
  sent_in (map (fun s => Sent (services_select s)) services)
  = map services_select services.
Proof. induction services; simpl; congruence. Qed.

Lemma failed_selects (services : list string) :
  failed_in (map (fun s => Sent (services_select s)) services) = [].
Proof. induction services; simpl; congruence. Qed.

Lemma sent_in_app (tr1 tr2 : list TraceEvent) :
  sent_in (tr1 ++ tr2) = sent_in tr1 ++ sent_in tr2.
Proof. apply flat_map_app. Qed.

Lemma failed_in_app (tr1 tr2 : list TraceEvent) :
  failed_in (tr1 ++ tr2) = failed_in tr1 ++ failed_in tr2.
Proof. apply flat_map_app. Qed.

(** The handler on a written document, none of its two awaited calls
    rejecting: it returns, with one chain started per element of
    [services]. *)
Lemma hotelChanges_written (key pid id : string) (services : list string)
    (now : Time) (fault1 fault2 : option Fault) (w : World) :
  key <> "" -> rejects fault1 = false -> rejects fault2 = false ->
  let r := hotelChanges key pid (written id services) now fault1 fault2 w in
  let row := {| hotel_id := id; updated_at := now |} in
  fst r = inr Returned
  /\ db (snd r)
     = unless_failed fault2 (do_hotels_services_delete id)
         (unless_failed fault1 (do_hotels_upsert row) (db w))
  /\ sent (snd r)
     = sent w ++ hotels_upsert row :: hotels_services_delete id
                 :: map services_select services
  /\ failed (snd r)
     = failed w ++ match fault1 with Some _ => [hotels_upsert row] | None => [] end
                ++ match fault2 with
                   | Some _ => [hotels_services_delete id]
                   | None => []
                   end
  /\ log (snd r) = log w
  /\ chains (snd r) = chains w ++ map (AwaitSelect id) services.
Proof.
  intros Hk H1 H2. unfold hotelChanges, written. cbn.
  rewrite (falsy_false Hk). cbn.
  destruct fault1 as [[e1|r1]|]; [|discriminate|];
    (destruct fault2 as [[e2|r2]|]; [|discriminate|]).
  all: unfold try_catch, bind; cbn; rewrite array_map_per_service; cbn.
  all: rewrite Promise_all_undefined; unfold sent, failed; cbn.
  all: rewrite !sent_in_app, !failed_in_app, ?sent_selects, ?failed_selects; cbn.
  all: rewrite <- ?app_assoc, ?app_nil_r; cbn.
  all: repeat split; reflexivity.
Qed.

(** ** What no step of a chain changes *)

Lemma log_step (e : Event) (w : World) : log (step e w) = log w.
Proof.
  destruct (nth_error (chains w) (ev_chain e)) as [c|] eqn:H.
  - destruct (step_transition e w H) as (d' & c' & tr & _ & ->). reflexivity.
  - now rewrite step_idle.
Qed.

Lemma log_run (schedule : list Event) (w : World) :
  log (run schedule w) = log w.
Proof.
  revert w. induction schedule as [|e rest IH]; intros w; simpl; [reflexivity|].
  unfold run in IH. now rewrite IH, log_step.
Qed.

Lemma run_cons (e : Event) (schedule : list Event) (w : World) :
  run (e :: schedule) w = run schedule (step e w).
Proof. reflexivity. Qed.

(** ** Fire and forget *)

(** C3.  On a written document (the first two calls of the handler not
    rejecting) the handler returns although every per-service chain it has
    started is still waiting for the answer to its lookup: the array given
    to [Promise.all] holds [undefined] only.  All the lookups have been
    sent by then.  Whatever happens to the chains afterwards, failures
    included, nothing of it reaches the log. *)
Theorem hotelChanges_returns_before_chains_settle (key pid id : string)
    (services : list string) (now : Time) (fault1 fault2 : option Fault)
    (w : World) :
  key <> "" -> rejects fault1 = false -> rejects fault2 = false ->
  let r := hotelChanges key pid (written id services) now fault1 fault2 w in
  fst r = inr Returned
  /\ chains (snd r) = chains w ++ map (AwaitSelect id) services
  /\ Forall (fun c => settled c = false) (map (AwaitSelect id) services)
  /\ sent (snd r)
     = sent w ++ hotels_upsert {| hotel_id := id; updated_at := now |}
                 :: hotels_services_delete id
                 :: map services_select services
  /\ forall schedule, log (run schedule (snd r)) = log w.
Proof.
  intros Hk H1 H2.
  destruct (@hotelChanges_written key pid id services now fault1 fault2 w Hk H1 H2)
    as (Hr & _ & Hs & _ & Hl & Hc).
  cbv zeta. repeat split; try assumption.
  - apply Forall_forall. intros c Hin. apply in_map_iff in Hin.
    now destruct Hin as [s [<- _]].
  - intros schedule. now rewrite log_run.
Qed.

Lemma hotelChanges_returns_before_chains_settle_witness :
  let r := hotelChanges "key" "project" (written "H1" ["wifi"; "spa"])
             "2024-02-02T00:00:00.000Z" None None H1_world in
  fst r = inr Returned
  /\ chains (snd r) = [AwaitSelect "H1" "wifi"; AwaitSelect "H1" "spa"]
  /\ Forall (fun c => settled c = false)
            [AwaitSelect "H1" "wifi"; AwaitSelect "H1" "spa"]
  /\ sent (snd r)
     = [hotels_upsert {| hotel_id := "H1";
                         updated_at := "2024-02-02T00:00:00.000Z" |};
        hotels_services_delete "H1";
        services_select "wifi"; services_select "spa"]
  /\ forall schedule, log (run schedule (snd r)) = [].
Proof.
  apply (@hotelChanges_returns_before_chains_settle "key" "project" "H1"
           ["wifi"; "spa"] "2024-02-02T00:00:00.000Z" None None H1_world).
  - discriminate.
  - reflexivity.
  - reflexivity.
Defined.

(** ** An insert without data *)

(** C9.  When the answer to the insert of a new service has no data, the
    callback returns at once: the chain is fulfilled, no upsert is sent,
    nothing is logged and nothing thrown.  So a name of the document can be
    missing from the hotel's associations without a trace in the log: at
    the end of the race of H1 and H2 for the new service "spa", where the
    environment injects no fault, H2 has no association and the log is
    empty. *)
Theorem insert_without_data_skips_upsert :
  (forall id service now (response : PostgrestResponse (list Z)) w,
      data response = None ->
      then_response id service now response w = (inr Fulfilled, w))
  /\ (forall e w id service response w1,
        nth_error (chains w) (ev_chain e) = Some (AwaitInsert id service) ->
        settle (services_insert service) (ev_fault e)
               (do_services_insert service) w = (inr response, w1) ->
        data response = None ->
        step e w = with_chains w1 (assign (ev_chain e) Fulfilled (chains w))
        /\ sent (step e w) = sent w
        /\ log (step e w) = log w
        /\ db (step e w) = db w)
  /\ (fault_free race_schedule
      /\ quiescent race_end = true
      /\ log race_end = []
      /\ association_names (db race_end) "H1" = ["spa"]
      /\ association_names (db race_end) "H2" = []).
Proof.
  split; [|split].
  - intros id service now response w H. unfold then_response. now rewrite H.
  - intros e w id service response w1 Hc Hs Hd.
    assert (step e w = with_chains w1 (assign (ev_chain e) Fulfilled (chains w))
            /\ sent w1 = sent w /\ db w1 = db w) as (E & Hsent & Hdb).
    { unfold step. rewrite Hc. cbn [resume]. unfold bind. rewrite Hs.
      unfold then_response. rewrite Hd. cbn.
      unfold settle in Hs. destruct (ev_fault e) as [[err|reason]|].
      - cbn in Hs. injection Hs as <- <-. cbn.
        repeat split. unfold sent. cbn. rewrite sent_in_app. cbn.
        now rewrite app_nil_r.
      - discriminate Hs.
      - unfold do_services_insert in Hs.
        destruct (existsb _ (services (db w))); cbn in Hs;
          injection Hs as <- <-; [|discriminate Hd].
        cbn. repeat split. unfold sent. cbn. rewrite sent_in_app. cbn.
        now rewrite app_nil_r. }
    rewrite log_step, E. cbn. auto.
  - split; [|now vm_compute].
    intros e He. repeat (destruct He as [<-|He]; [reflexivity|]). destruct He.
Qed.

Lemma insert_without_data_skips_upsert_witness :
  let e := {| ev_chain := 0; ev_fault := Some (ErrorResult timeout_error);
              ev_now := "2024-03-03T00:00:02.000Z" |} in
  let w := {| db := H1_db; trace := []; log := [];
              chains := [AwaitInsert "H1" "spa"] |} in
  then_response "H1" "spa" "2024-03-03T00:00:02.000Z" (failure timeout_error) w
  = (inr Fulfilled, w)
  /\ chains (step e w) = [Fulfilled]
  /\ sent (step e w) = []
  /\ log (step e w) = []
  /\ db (step e w) = H1_db.
Proof.
  intros e w.
  destruct insert_without_data_skips_upsert as (Hcb & Hstep & _).
  split.
  - apply Hcb. reflexivity.
  - destruct (Hstep e w "H1" "spa" (failure timeout_error)
                {| db := H1_db; trace := [Failed (services_insert "spa")];
                   log := []; chains := [AwaitInsert "H1" "spa"] |})
      as (E & Hs & Hl & Hd); try reflexivity.
    rewrite E at 1. auto.
Defined.

(** ** The handler on a deleted document *)

Lemma hotels_delete_gone (id : string) (d : Database) (r : hotels_row) :
  In r (hotels (do_hotels_delete id d)) -> hotel_id r <> id.
Proof.
  unfold do_hotels_delete. cbn. rewrite filter_In, negb_true_iff.
  intros [_ H]. now apply String.eqb_neq.
Qed.

Lemma hotels_services_delete_gone (id : string) (d : Database)
    (a : hotels_services_row) :
  In a (hotels_services (do_hotels_services_delete id d)) -> hs_hotel_id a <> id.
Proof.
  unfold do_hotels_services_delete. cbn. rewrite filter_In, negb_true_iff.
  intros [_ H]. now apply String.eqb_neq.
Qed.

Lemma hotelChanges_deleted (key pid id : string) (now : Time)
    (fault1 fault2 : option Fault) (w : World) :
  key <> "" ->
  let r := hotelChanges key pid (deleted id) now fault1 fault2 w in
  fst r = inr Returned
  /\ sent (snd r)
     = sent w ++ hotels_delete id
                 :: (if rejects fault1 then [] else [hotels_services_delete id])
  /\ db (snd r)
     = (if rejects fault1 then unless_failed fault1 (do_hotels_delete id) (db w)
        else unless_failed fault2 (do_hotels_services_delete id)
               (unless_failed fault1 (do_hotels_delete id) (db w)))
  /\ log (snd r)
     = log w ++ match fault1, fault2 with
                | Some (Rejects reason), _
                | Some (ErrorResult _), Some (Rejects reason)
                | None, Some (Rejects reason) =>
                    [{| l_message := "error"; l_error := Some (Rejection reason) |}]
                | _, _ => []
                end.
Proof.
  intros Hk. unfold hotelChanges, deleted. cbn. rewrite (falsy_false Hk). cbn.
  destruct fault1 as [[e1|r1]|]; destruct fault2 as [[e2|r2]|].
  all: unfold try_catch, bind, sent; cbn.
  all: rewrite !sent_in_app; cbn.
  all: rewrite <- ?app_assoc, ?app_nil_r; cbn.
  all: repeat split; reflexivity.
Qed.

(** C7, as the code has it.  On a deleted document the handler sends the
    delete of the hotel's row in [hotels] first and that of its rows in
    [hotels_services] second; the second is sent also when the store
    answers the first with an error, but not when the first call rejects.
    A rejection is logged, and the handler returns normally in every case.
    When the first delete succeeds, or the second does, no later call of
    [filterService] returns the hotel. *)
Theorem hotelChanges_deleted_removes (key pid id : string) (now : Time)
    (fault1 fault2 : option Fault) (w : World) :
  key <> "" ->
  let r := hotelChanges key pid (deleted id) now fault1 fault2 w in
  fst r = inr Returned
  /\ sent (snd r)
     = sent w ++ hotels_delete id
                 :: (if rejects fault1 then [] else [hotels_services_delete id])
  /\ (forall reason,
        fault1 = Some (Rejects reason)
        \/ (rejects fault1 = false /\ fault2 = Some (Rejects reason)) ->
        log (snd r)
        = log w ++ [{| l_message := "error";
                       l_error := Some (Rejection reason) |}])
  /\ (fault1 = None \/ (rejects fault1 = false /\ fault2 = None) ->
      forall services key' pid' fault result w',
        filterService services key' pid' fault (snd r) = (inr result, w') ->
        ~ In id result).
Proof.
  intros Hk.
  destruct (@hotelChanges_deleted key pid id now fault1 fault2 w Hk)
    as (Hr & Hs & Hd & Hl).
  cbv zeta. repeat split; try assumption.
  - intros reason [->|[Hn ->]]; rewrite Hl; [reflexivity|].
    now destruct fault1 as [[e1|r1]|].
  - intros Hok services key' pid' fault result w' E Hin.
    destruct (@filterService_sound _ _ _ _ _ _ _ _ E Hin)
      as ([r [Hrow Hid]] & [a [Ha Hah]] & _).
    rewrite Hd in Hrow, Ha.
    destruct Hok as [->|[Hn ->]].
    + cbn in Hrow.
      assert (In r (hotels (do_hotels_delete id (db w)))) as Hrow'
        by (destruct fault2 as [[?|?]|]; exact Hrow).
      now apply hotels_delete_gone in Hrow'.
    + rewrite Hn in Ha. cbn in Ha.
      now apply hotels_services_delete_gone in Ha.
Qed.

Lemma hotelChanges_deleted_removes_witness :
  let r := hotelChanges "key" "project" (deleted "H1")
             "2024-04-04T00:00:00.000Z" (Some (ErrorResult timeout_error)) None
             H1_world in
  fst r = inr Returned
  /\ sent (snd r) = [hotels_delete "H1"; hotels_services_delete "H1"]
  /\ ~ In "H1" [].
Proof.
  destruct (@hotelChanges_deleted_removes "key" "project" "H1"
              "2024-04-04T00:00:00.000Z" (Some (ErrorResult timeout_error)) None
              H1_world) as (Hr & Hs & _ & Hf); [discriminate|].
  split; [exact Hr|]. split; [exact Hs|].
  apply (Hf (or_intror (conj eq_refl eq_refl)) ["wifi"] "key" "project" None []
            (snd (filterService ["wifi"] "key" "project" None
                    (snd (hotelChanges "key" "project" (deleted "H1")
                            "2024-04-04T00:00:00.000Z"
                            (Some (ErrorResult timeout_error)) None H1_world))))).
  reflexivity.
Defined.

(** C7 as stated does not hold: that both deletes are sent whatever happens
    to the first, that a call the store failed leaves an entry in the log,
    and that the hotel is never returned afterwards.  With both deletes
    answered by an error nothing is logged and H1 is still found; with the
    first delete rejecting the second is never sent. *)
Lemma hotelChanges_deleted_counterexample :
  ~ (forall key pid id now fault1 fault2 w,
       key <> "" ->
       let r := hotelChanges key pid (deleted id) now fault1 fault2 w in
       sent (snd r) = sent w ++ [hotels_delete id; hotels_services_delete id]
       /\ (failed (snd r) <> failed w -> log (snd r) <> log w)
       /\ fst r = inr Returned
       /\ forall services key' pid' fault result w',
            filterService services key' pid' fault (snd r) = (inr result, w') ->
            ~ In id result).
Proof.
  intros H.
  destruct (H "key" "project" "H1" "2024-04-04T00:00:00.000Z"
              (Some (ErrorResult timeout_error))
              (Some (ErrorResult timeout_error)) H1_world)
    as (_ & Hlog & _ & _); [discriminate|].
  apply Hlog; [discriminate | reflexivity].
Qed.

(** ** The lookup of a service by name *)

Lemma select_found_row (service : string) (d : Database) (sid : Z) (rest : list Z) :
  do_services_select service d = sid :: rest ->
  In {| id := sid; name := service |} (services d).
Proof.
  unfold do_services_select.
  induction (services d) as [|s l IH]; simpl; [discriminate|].
  destruct (String.eqb_spec (name s) service) as [E|N]; simpl.
  - intros [= <- _]. left. destruct s; simpl in *. now subst.
  - intros H. right. now apply IH.
Qed.

Lemma select_empty_none (service : string) (d : Database) :
  do_services_select service d = [] <->
  forall s, In s (services d) -> name s <> service.
Proof.
  unfold do_services_select.
  induction (services d) as [|s l IH]; simpl; [tauto|].
  destruct (String.eqb_spec (name s) service) as [E|N]; simpl.
  - split; [discriminate|]. intros H. now destruct (H s (or_introl eq_refl)).
  - rewrite IH. split.
    + intros H s' [<-|Hin]; auto.
    + intros H s' Hin. apply H. now right.
Qed.

Lemma taken_iff (service : string) (d : Database) :
  existsb (fun s => (name s =? service)%string) (services d) = true <->
  exists s, In s (services d) /\ name s = service.
Proof.
  rewrite existsb_exists. split; intros [s [Hin E]]; exists s; split; trivial;
    now apply String.eqb_eq.
Qed.

Lemma not_taken_iff (service : string) (d : Database) :
  existsb (fun s => (name s =? service)%string) (services d) = false <->
  forall s, In s (services d) -> name s <> service.
Proof.
  rewrite <- not_true_iff_false, taken_iff. split.
  - intros H s Hin E. apply H. now exists s.
  - intros H [s [Hin E]]. now apply (H s).
Qed.

Lemma select_after_insert (service : string) (d : Database) :
  do_services_select service d = [] ->
  do_services_select service (snd (do_services_insert service d))
  = [services_id_seq d].
Proof.
  intros H. pose proof H as Hn. rewrite select_empty_none, <- not_taken_iff in Hn.
  unfold do_services_insert. rewrite Hn. cbn.
  unfold do_services_select in *. rewrite filter_app, map_app, H. cbn.
  now rewrite String.eqb_refl.
Qed.

(** C5.  Resolving a name twice in a row gives the same service id both
    times, the id of a row of [services] with exactly that name.  The
    second time nothing is inserted; the first time a row is appended only
    when no row has exactly that name (so one row for the two resolutions,
    not two), and an existing row is used as it is.  Names that differ in
    case are different names: resolving "WiFi" where only "wifi" exists
    inserts a row. *)
Theorem resolve_twice_same_id (id id' service : string) (now now' : Time)
    (w : World) :
  (exists serviceId w1 w2,
     resolve id service now w
     = (inr (AwaitUpsert service {| hs_hotel_id := id;
                                    hs_service_id := serviceId;
                                    hs_updated_at := now |}), w1)
     /\ resolve id' service now' w1
        = (inr (AwaitUpsert service {| hs_hotel_id := id';
                                       hs_service_id := serviceId;
                                       hs_updated_at := now' |}), w2)
     /\ db w2 = db w1
     /\ In {| id := serviceId; name := service |} (services (db w1))
     /\ ((exists s, In s (services (db w)) /\ name s = service) ->
         services (db w1) = services (db w))
     /\ ((forall s, In s (services (db w)) -> name s <> service) ->
         services (db w1)
         = services (db w) ++ [{| id := serviceId; name := service |}]))
  /\ fst (resolve "H1" "WiFi" now H1_world)
     = inr (AwaitUpsert "WiFi" {| hs_hotel_id := "H1"; hs_service_id := 3;
                                  hs_updated_at := now |}).
Proof.
  split; [|reflexivity].
  unfold resolve, resume, bind, settle, then_existingService, then_response,
    send, record, ret, answer_select.
  cbn -[do_services_select do_services_insert].
  destruct (do_services_select service (db w)) as [|sid rest] eqn:Es.
  - (* no row of that name: insert *)
    pose proof Es as Hn. rewrite select_empty_none in Hn.
    pose proof Hn as Hx. rewrite <- not_taken_iff in Hx.
    pose proof (select_after_insert _ _ Es) as Es'.
    unfold do_services_insert in *. cbn -[do_services_select] in *.
    rewrite Hx in *. cbn -[do_services_select] in *.
    do 3 eexists. split; [reflexivity|].
    cbn -[do_services_select]. rewrite Es'. cbn. split; [reflexivity|].
    split; [reflexivity|]. split; [|split].
    + apply in_or_app. right. now left.
    + intros [s [Hin E]]. now destruct (Hn s Hin).
    + reflexivity.
  - (* a row of that name: reuse *)
    cbn -[do_services_select].
    do 3 eexists. split; [reflexivity|].
    cbn -[do_services_select]. rewrite Es. cbn. split; [reflexivity|].
    split; [reflexivity|]. split; [|split].
    + eapply select_found_row; eassumption.
    + reflexivity.
    + intros Hn. apply select_empty_none in Hn. congruence.
Qed.

Lemma resolve_twice_same_id_witness :
  exists serviceId w1 w2,
    resolve "H1" "spa" "2024-05-05T00:00:00.000Z" H1_world
    = (inr (AwaitUpsert "spa" {| hs_hotel_id := "H1";
                                 hs_service_id := serviceId;
                                 hs_updated_at := "2024-05-05T00:00:00.000Z" |}),
       w1)
    /\ resolve "H2" "spa" "2024-05-05T00:00:01.000Z" w1
       = (inr (AwaitUpsert "spa" {| hs_hotel_id := "H2";
                                    hs_service_id := serviceId;
                                    hs_updated_at := "2024-05-05T00:00:01.000Z" |}),
          w2)
    /\ services (db w1)
       = services H1_db ++ [{| id := serviceId; name := "spa" |}].
Proof.
  destruct (@resolve_twice_same_id "H1" "H2" "spa" "2024-05-05T00:00:00.000Z"
              "2024-05-05T00:00:01.000Z" H1_world)
    as [(sid & w1 & w2 & E1 & E2 & _ & _ & _ & Hnew) _].
  exists sid, w1, w2. split; [exact E1|]. split; [exact E2|].
  apply Hnew. intros s [<-|[<-|[]]]; discriminate.
Defined.

(** ** Counting the upserts *)

Lemma count_assign {A} (f : A -> bool) (i : nat) (c c' : A) (l : list A) :
  nth_error l i = Some c ->
  (length (filter f (assign i c' l)) + Nat.b2n (f c)
   = length (filter f l) + Nat.b2n (f c'))%nat.
Proof.
  revert i. induction l as [|x l IH]; intros [|i]; simpl; try discriminate.
  - intros [= ->]. destruct (f c), (f c'); simpl; lia.
  - intros H. specialize (IH i H). destruct (f x); simpl; lia.
Qed.

(** In one transition the chain sends at most one upsert, and only on
    leaving the name lookup; it leaves the lookup without an upsert only
    when the store failed a call. *)
Lemma transition_counts (now : Time) (d d' : Database) (fault : option Fault)
    (c c' : Chain) (tr : list TraceEvent) :
  transition now d fault c d' c' tr ->
  (Nat.b2n (resolved c) + length (filter is_upsert (sent_in tr))
   <= Nat.b2n (resolved c')
   /\ Nat.b2n (resolved c')
      <= Nat.b2n (resolved c) + length (filter is_upsert (sent_in tr))
         + length (failed_in tr))%nat.
Proof.
  intros T. destruct T; cbn; lia.
Qed.

Lemma step_counts (e : Event) (w : World) :
  let P w := length (filter resolved (chains w)) in
  let F w := length (failed w) in
  (P w + upserts_sent (step e w) <= P (step e w) + upserts_sent w
   /\ P (step e w) + upserts_sent w + F w
      <= P w + upserts_sent (step e w) + F (step e w)
   /\ F w <= F (step e w)
   /\ length (chains (step e w)) = length (chains w))%nat.
Proof.
  cbv zeta.
  destruct (nth_error (chains w) (ev_chain e)) as [c|] eqn:H.
  - destruct (step_transition e w H) as (d' & c' & tr & T & ->).
    apply transition_counts in T.
    pose proof (count_assign resolved (ev_chain e) c' _ H) as Hc.
    unfold upserts_sent, failed, sent. cbn.
    rewrite sent_in_app, failed_in_app, filter_app, !length_app, length_assign.
    lia.
  - rewrite step_idle by assumption. lia.
Qed.

Lemma run_counts (schedule : list Event) (w : World) :
  let P w := length (filter resolved (chains w)) in
  let F w := length (failed w) in
  (P w + upserts_sent (run schedule w) <= P (run schedule w) + upserts_sent w
   /\ P (run schedule w) + upserts_sent w + F w
      <= P w + upserts_sent (run schedule w) + F (run schedule w)
   /\ F w <= F (run schedule w)
   /\ length (chains (run schedule w)) = length (chains w))%nat.
Proof.
  cbv zeta. revert w. induction schedule as [|e rest IH]; intros w.
  - cbn. lia.
  - rewrite run_cons. specialize (IH (step e w)).
    pose proof (step_counts e w) as Hs. cbv zeta in Hs. lia.
Qed.

Lemma settled_resolved (c : Chain) : settled c = true -> resolved c = true.
Proof. now destruct c. Qed.

Lemma quiescent_all_resolved (w : World) :
  quiescent w = true ->
  length (filter resolved (chains w)) = length (chains w).
Proof.
  unfold quiescent. rewrite forallb_forall.
  induction (chains w) as [|c l IH]; intros H; cbn; [reflexivity|].
  rewrite (settled_resolved c) by (apply H; now left). cbn.
  rewrite IH; [reflexivity|]. intros x Hx. apply H. now right.
Qed.

Lemma none_resolved (id : string) (services : list string) :
  filter resolved (map (AwaitSelect id) services) = [].
Proof. induction services; cbn; congruence. Qed.

(** What [resolve] does: either a row of that name exists and its id is
    taken, or one is inserted; in both cases the upsert of
    (hotel, service id, now) is the request sent last. *)
Lemma resolve_cases (id service : string) (now : Time) (w : World) :
  exists serviceId w',
    resolve id service now w
    = (inr (AwaitUpsert service {| hs_hotel_id := id;
                                   hs_service_id := serviceId;
                                   hs_updated_at := now |}), w')
    /\ In {| id := serviceId; name := service |} (services (db w'))
    /\ (sent w' = sent w ++ [hotels_services_upsert
                               {| hs_hotel_id := id;
                                  hs_service_id := serviceId;
                                  hs_updated_at := now |}]
        \/ sent w' = sent w ++ [services_insert service;
                                hotels_services_upsert
                                  {| hs_hotel_id := id;
                                     hs_service_id := serviceId;
                                     hs_updated_at := now |}]).
Proof.
  unfold resolve, resume, bind, settle, then_existingService, then_response,
    send, record, ret, answer_select.
  cbn -[do_services_select do_services_insert].
  destruct (do_services_select service (db w)) as [|sid rest] eqn:Es.
  - pose proof Es as Hx. rewrite select_empty_none, <- not_taken_iff in Hx.
    unfold do_services_insert. cbn. rewrite Hx. cbn.
    do 2 eexists. split; [reflexivity|]. cbn. split.
    + apply in_or_app. right. now left.
    + right. unfold sent. cbn. rewrite !sent_in_app. cbn.
      now rewrite <- !app_assoc.
  - cbn. do 2 eexists. split; [reflexivity|]. cbn. split.
    + eapply select_found_row; eassumption.
    + left. unfold sent. cbn. rewrite !sent_in_app. cbn.
      now rewrite <- !app_assoc.
Qed.

Lemma associations_after_delete (id : string) (d : Database) :
  associations (do_hotels_services_delete id d) id = [].
Proof.
  unfold associations, do_hotels_services_delete. cbn.
  induction (hotels_services d) as [|a l IH]; cbn; [reflexivity|].
  destruct (String.eqb_spec (hs_hotel_id a) id) as [E|N]; cbn; [assumption|].
  destruct (String.eqb_spec (hs_hotel_id a) id); [contradiction|]. assumption.
Qed.

Lemma hotels_upsert_In (row : hotels_row) (d : Database) :
  In row (hotels (do_hotels_upsert row d)).
Proof.
  unfold do_hotels_upsert. cbn.
  destruct (existsb _ (hotels d)) eqn:Ex.
  - apply existsb_exists in Ex. destruct Ex as [r [Hin E]].
    apply in_map_iff. exists r. now rewrite E.
  - apply in_or_app. right. now left.
Qed.

(** ** The handler on a written document, step by step *)

(** C2, as the code has it.  On a written document, its two awaited calls
    succeeding, the handler first upserts the hotel's row with the current
    time, then deletes every row of the hotel in [hotels_services]
    (whatever the document lists), then starts one chain per element of the
    list, duplicates included, each with its lookup sent.  A chain whose
    name resolves to a service id sends the upsert of (hotel id, service
    id, now).  Once all chains have settled, for every order of answers
    and every fault, at most one upsert per element has been sent, and
    the elements without an upsert are made up for by failed store calls;
    if no call failed, there is exactly one upsert per element. *)
Theorem hotelChanges_written_steps (key pid id : string)
    (services : list string) (now : Time) (w : World) :
  key <> "" ->
  let w0 := snd (hotelChanges key pid (written id services) now None None w) in
  let row := {| hotel_id := id; updated_at := now |} in
  sent w0 = sent w ++ hotels_upsert row :: hotels_services_delete id
                      :: map services_select services
  /\ In row (hotels (db w0))
  /\ associations (db w0) id = []
  /\ chains w0 = chains w ++ map (AwaitSelect id) services
  /\ (forall service now' w1,
        exists serviceId w2,
          resolve id service now' w1
          = (inr (AwaitUpsert service {| hs_hotel_id := id;
                                         hs_service_id := serviceId;
                                         hs_updated_at := now' |}), w2)
          /\ In {| Supabase.id := serviceId; name := service |} (Supabase.services (db w2))
          /\ (sent w2 = sent w1 ++ [hotels_services_upsert
                                      {| hs_hotel_id := id;
                                         hs_service_id := serviceId;
                                         hs_updated_at := now' |}]
              \/ sent w2 = sent w1 ++ [services_insert service;
                                       hotels_services_upsert
                                         {| hs_hotel_id := id;
                                            hs_service_id := serviceId;
                                            hs_updated_at := now' |}]))
  /\ (forall schedule,
        quiescent w = true ->
        quiescent (run schedule w0) = true ->
        (upserts_sent (run schedule w0) <= upserts_sent w + length services)%nat
        /\ (upserts_sent w + length services
            <= upserts_sent (run schedule w0)
               + (length (failed (run schedule w0)) - length (failed w)))%nat
        /\ (failed (run schedule w0) = failed w ->
            upserts_sent (run schedule w0)
            = (upserts_sent w + length services)%nat)).
Proof.
  intros Hk.
  destruct (@hotelChanges_written key pid id services now None None w Hk
              eq_refl eq_refl) as (_ & Hd & Hs & Hf & _ & Hc).
  cbv zeta. cbn [unless_failed] in Hd. rewrite app_nil_r in Hf.
  split; [exact Hs|]. split; [|split; [|split; [exact Hc|split]]].
  - rewrite Hd. apply hotels_upsert_In.
  - rewrite Hd. apply associations_after_delete.
  - intros service now' w1. apply resolve_cases.
  - intros schedule Hq Hq'.
    set (w0 := snd (hotelChanges key pid (written id services) now None None w)) in *.
    pose proof (run_counts schedule w0) as (H1 & H2 & H3 & Hlen). cbv zeta in *.
    rewrite (quiescent_all_resolved _ Hq'), Hlen in H1, H2.
    rewrite Hf in H2, H3.
    assert (upserts_sent w0 = upserts_sent w) as Hu.
    { unfold upserts_sent. rewrite Hs, filter_app. cbn.
      replace (filter is_upsert (map services_select services)) with (@nil Request);
        [now rewrite app_nil_r|].
      clear. induction services; cbn; congruence. }
    rewrite Hc, filter_app, none_resolved, app_nil_r in H1, H2.
    rewrite (quiescent_all_resolved _ Hq), length_app, length_map in H1, H2.
    split; [lia|]. split; [lia|]. intros Hfail. rewrite Hfail in H2. lia.
Qed.

Lemma hotelChanges_written_steps_witness :
  let w0 := snd (hotelChanges "key" "project"
                   (written "H1" ["wifi"; "wifi"; "spa"])
                   "2024-06-06T00:00:00.000Z" None None H1_world) in
  sent w0 = [hotels_upsert {| hotel_id := "H1";
                              updated_at := "2024-06-06T00:00:00.000Z" |};
             hotels_services_delete "H1";
             services_select "wifi"; services_select "wifi";
             services_select "spa"]
  /\ upserts_sent
       (run [answer 0; answer 1; answer 2; answer 2;
             answer 0; answer 1; answer 2] w0) = 3%nat.
Proof.
  destruct (@hotelChanges_written_steps "key" "project" "H1"
              ["wifi"; "wifi"; "spa"] "2024-06-06T00:00:00.000Z" H1_world)
    as (Hs & _ & _ & _ & _ & Hn); [discriminate|].
  split; [exact Hs|].
  apply (Hn [answer 0; answer 1; answer 2; answer 2;
             answer 0; answer 1; answer 2]); reflexivity.
Defined.

(** C2 as stated does not hold: that every element of the list, duplicates
    included, produces an upsert attempt.  For the document that lists the
    new service "spa" twice, both lookups find nothing, both chains
    insert, the store refuses the second insert (the name is taken), and
    the second chain ends without upsert: one upsert for two elements,
    with no fault injected. *)
Lemma hotelChanges_written_steps_counterexample :
  ~ (forall key pid id services now w schedule,
       key <> "" -> quiescent w = true -> fault_free schedule ->
       let final :=
         run schedule
             (snd (hotelChanges key pid (written id services) now None None w)) in
       quiescent final = true ->
       upserts_sent final = (upserts_sent w + length services)%nat).
Proof.
  intros H.
  specialize (H "key" "project" "H1" ["spa"; "spa"] "2024-06-06T00:00:00.000Z"
                empty_world [answer 0; answer 1; answer 0; answer 1; answer 0]).
  cbv zeta in H.
  assert (fault_free [answer 0; answer 1; answer 0; answer 1; answer 0]) as Hf.
  { intros e He. repeat (destruct He as [<-|He]; [reflexivity|]). destruct He. }
  specialize (H ltac:(discriminate) eq_refl Hf eq_refl).
  vm_compute in H. discriminate H.
Qed.

(** ** The tables under the steps of the chains *)

Lemma NoDup_map_eq {A B} (f : A -> B) (l : list A) (x y : A) :
  NoDup (map f l) -> In x l -> In y l -> f x = f y -> x = y.
Proof.
  induction l as [|z l IH]; cbn; [contradiction|].
  intros N Hx Hy E. inversion N as [|? ? Hz N']; subst.
  destruct Hx as [<-|Hx], Hy as [<-|Hy]; trivial.
  - destruct Hz. rewrite E. now apply in_map.
  - destruct Hz. rewrite <- E. now apply in_map.
  - now apply IH.
Qed.

Lemma upsert_In (row : hotels_services_row) (d : Database) :
  In row (hotels_services (do_hotels_services_upsert row d)).
Proof.
  unfold do_hotels_services_upsert. cbn.
  destruct (pkey_hotel_service (schema d)); cbn; [|apply in_or_app; right; now left].
  destruct (existsb _ (hotels_services d)) eqn:Ex.
  - apply existsb_exists in Ex. destruct Ex as [r [Hin E]].
    apply in_map_iff. exists r. now rewrite E.
  - apply in_or_app. right. now left.
Qed.

(** A row after the upsert is the upserted row or was there before. *)
Lemma upsert_inv (row a : hotels_services_row) (d : Database) :
  In a (hotels_services (do_hotels_services_upsert row d)) ->
  a = row \/ In a (hotels_services d).
Proof.
  unfold do_hotels_services_upsert. cbn.
  destruct (pkey_hotel_service (schema d) && existsb _ (hotels_services d))%bool.
  - rewrite in_map_iff. intros [r [E Hin]].
    destruct (_ && _)%bool in E; [left | right]; congruence.
  - rewrite in_app_iff. cbn. intuition.
Qed.

(** A row before the upsert is still there, up to its time stamp. *)
Lemma upsert_keeps (row a : hotels_services_row) (d : Database) :
  In a (hotels_services d) ->
  exists a', In a' (hotels_services (do_hotels_services_upsert row d))
             /\ hs_hotel_id a' = hs_hotel_id a
             /\ hs_service_id a' = hs_service_id a.
Proof.
  intros Hin. unfold do_hotels_services_upsert. cbn.
  destruct (pkey_hotel_service (schema d) && existsb _ (hotels_services d))%bool.
  - destruct ((hs_hotel_id a =? hs_hotel_id row)%string
              && (hs_service_id a =? hs_service_id row))%bool eqn:E.
    + exists row. apply andb_true_iff in E. destruct E as [E1 E2].
      apply String.eqb_eq in E1. apply Z.eqb_eq in E2.
      split; [|now split]. apply in_map_iff. exists a. rewrite E1, E2.
      now rewrite String.eqb_refl, Z.eqb_refl.
    + exists a. split; [|now split]. apply in_map_iff. exists a. now rewrite E.
  - exists a. split; [|now split]. apply in_or_app. now left.
Qed.

Lemma services_insert_new (service : string) (d : Database) :
  existsb (fun s => (name s =? service)%string) (services d) = false ->
  services (snd (do_services_insert service d))
  = services d ++ [{| id := services_id_seq d; name := service |}]
  /\ hotels_services (snd (do_services_insert service d)) = hotels_services d.
Proof. intros H. unfold do_services_insert. now rewrite H. Qed.

Lemma NoDup_snoc {A} (l : list A) (x : A) :
  NoDup l -> ~ In x l -> NoDup (l ++ [x]).
Proof.
  induction l as [|y l IH]; cbn; intros N Hx.
  - constructor; [tauto | constructor].
  - inversion N as [|? ? Hy N']; subst. constructor.
    + rewrite in_app_iff. cbn. intuition.
    + apply IH; tauto.
Qed.

Lemma constraints_insert (service : string) (d : Database) :
  existsb (fun s => (name s =? service)%string) (services d) = false ->
  constraints d -> constraints (snd (do_services_insert service d)).
Proof.
  intros Hx (Nid & Nname & Hseq).
  pose proof (proj1 (not_taken_iff _ _) Hx) as Hn.
  unfold constraints, do_services_insert. rewrite Hx. cbn.
  rewrite !map_app. cbn. split; [|split].
  - apply NoDup_snoc; [exact Nid|].
    intros Hin. apply in_map_iff in Hin. destruct Hin as [s [E Hs]].
    specialize (Hseq s Hs). lia.
  - apply NoDup_snoc; [exact Nname|].
    intros Hin. apply in_map_iff in Hin. destruct Hin as [s [E Hs]].
    now apply (Hn s).
  - intros s Hs. apply in_app_iff in Hs. destruct Hs as [Hs|[<-|[]]].
    + specialize (Hseq s Hs). lia.
    + cbn. lia.
Qed.

(** ** The invariant is kept *)

Lemma nth_error_assign_same {A} (i : nat) (c c' : A) (l : list A) :
  nth_error l i = Some c -> nth_error (assign i c' l) i = Some c'.
Proof.
  intros H. rewrite nth_error_assign, Nat.eqb_refl.
  assert (i < length l)%nat as Hlt by (apply nth_error_Some; congruence).
  apply Nat.ltb_lt in Hlt. now rewrite Hlt.
Qed.

Lemma nth_error_assign_other {A} (i j : nat) (c' : A) (l : list A) :
  j <> i -> nth_error (assign i c' l) j = nth_error l j.
Proof.
  intros H. rewrite nth_error_assign.
  destruct (Nat.eqb_spec i j); [congruence | reflexivity].
Qed.

Lemma chain_ok_mono (id : string) (names : list string) (d d' : Database)
    (c : Chain) :
  incl (services d) (services d') ->
  chain_ok id names d c -> chain_ok id names d' c.
Proof.
  intros Hi. destruct c; cbn; trivial. intros (H1 & H2 & H3). auto.
Qed.

Lemma associated_mono (id n : string) (d d' : Database) :
  incl (services d) (services d') ->
  hotels_services d' = hotels_services d ->
  associated id n d -> associated id n d'.
Proof.
  intros Hi Hh (a & Ha & Hid & Hs). exists a. rewrite Hh. auto.
Qed.

Lemma pending_for_same_services (n : string) (d d' : Database) (c : Chain) :
  services d' = services d -> pending_for n d c -> pending_for n d' c.
Proof. intros E. destruct c; cbn; trivial. now rewrite E. Qed.

(** The frame of a step: what has to hold of the new tables and of the new
    state of the chain for the invariant to carry over. *)
Lemma reconciling_update (id : string) (names : list string) (w : World)
    (d' : Database) (c c' : Chain) (i : nat) (tr : list TraceEvent)
    (lg : list LogEntry) :
  reconciling id names w ->
  nth_error (chains w) i = Some c ->
  constraints d' ->
  incl (services (db w)) (services d') ->
  (forall a, In a (hotels_services d') -> hs_hotel_id a = id ->
     exists n, In n names
       /\ In {| Supabase.id := hs_service_id a; name := n |} (services d')) ->
  chain_ok id names d' c' ->
  (forall n, associated id n (db w) -> associated id n d') ->
  (forall n x, pending_for n (db w) x ->
     pending_for n d' x \/ pending_for n d' c' \/ associated id n d') ->
  (forall n, pending_for n (db w) c ->
     pending_for n d' c' \/ associated id n d') ->
  reconciling id names
    {| db := d'; trace := tr; log := lg; chains := assign i c' (chains w) |}.
Proof.
  intros [Hcon Hrows Hch Hcov] Hi Hcon' Hincl Hrows' Hok Hassoc Hothers Hself.
  constructor; cbn.
  - exact Hcon'.
  - exact Hrows'.
  - intros j x Hj. destruct (Nat.eq_dec j i) as [->|Hne].
    + rewrite (@nth_error_assign_same _ i c c' _ Hi) in Hj. now injection Hj as <-.
    + rewrite nth_error_assign_other in Hj by assumption.
      eapply chain_ok_mono; [exact Hincl|]. now apply (Hch j).
  - intros n Hn. destruct (Hcov n Hn) as [Ha|(j & x & Hj & Hp)].
    + left. now apply Hassoc.
    + destruct (Nat.eq_dec j i) as [->|Hne].
      * rewrite Hi in Hj. injection Hj as <-.
        destruct (Hself n Hp) as [Hp'|Ha]; [|now left].
        right. exists i, c'. split; [|exact Hp'].
        eapply nth_error_assign_same; eassumption.
      * destruct (Hothers n x Hp) as [Hp'|[Hp'|Ha]]; [| |now left].
        -- right. exists j, x. split; [|exact Hp'].
           now rewrite nth_error_assign_other.
        -- right. exists i, c'. split; [|exact Hp'].
           eapply nth_error_assign_same; eassumption.
Qed.

(** A step of a chain the environment lets succeed keeps the invariant. *)
Lemma reconciling_step (id : string) (names : list string) (e : Event)
    (w : World) :
  reconciling id names w -> ev_fault e = None ->
  reconciling id names (step e w).
Proof.
  intros R Hf.
  destruct (nth_error (chains w) (ev_chain e)) as [c|] eqn:Hi;
    [|now rewrite step_idle].
  destruct (step_transition e w Hi) as (d' & c' & tr & T & ->).
  rewrite Hf in T.
  pose proof (@rec_chains _ _ _ R _ _ Hi) as Hok.
  pose proof (rec_constraints R) as Hcon.
  pose proof (rec_rows R) as Hrows.
  inversion T; subst; cbn in Hok;
    (eapply reconciling_update; [exact R | exact Hi | | | | | | | ]).
  - (* the lookup finds a row *)
    exact Hcon.
  - apply incl_refl.
  - exact Hrows.
  - destruct Hok as [-> Hin]. cbn. repeat split; trivial.
    eapply select_found_row; eassumption.
  - trivial.
  - auto.
  - cbn. auto.
  - (* the lookup finds nothing *)
    exact Hcon.
  - apply incl_refl.
  - exact Hrows.
  - exact Hok.
  - trivial.
  - auto.
  - cbn. intros n ->. left. split; [reflexivity|]. now apply select_empty_none.
  - (* the insert is refused: the name has been taken meanwhile *)
    exact Hcon.
  - apply incl_refl.
  - exact Hrows.
  - exact I.
  - trivial.
  - auto.
  - cbn. intros n [-> Hfree]. exfalso.
    match goal with H : existsb _ _ = true |- _ =>
      apply taken_iff in H; destruct H as [s [Hs E]] end.
    now apply (Hfree s).
  - (* the insert adds the row *)
    now apply constraints_insert.
  - match goal with H : existsb _ _ = false |- _ =>
      destruct (services_insert_new _ _ H) as [Es _] end.
    rewrite Es. now apply incl_appl, incl_refl.
  - match goal with H : existsb _ _ = false |- _ =>
      destruct (services_insert_new _ _ H) as [Es Eh] end.
    intros a Ha Hid. rewrite Eh in Ha.
    destruct (Hrows a Ha Hid) as (n & Hn & Hs). exists n. split; [exact Hn|].
    rewrite Es. apply in_or_app. now left.
  - match goal with H : existsb _ _ = false |- _ =>
      destruct (services_insert_new _ _ H) as [Es _] end.
    destruct Hok as [-> Hin]. cbn. repeat split; trivial.
    rewrite Es. apply in_or_app. right. now left.
  - match goal with H : existsb _ _ = false |- _ =>
      destruct (services_insert_new _ _ H) as [Es Eh] end.
    intros n. apply associated_mono; [|exact Eh].
    rewrite Es. now apply incl_appl, incl_refl.
  - match goal with H : existsb _ _ = false |- _ =>
      destruct (services_insert_new _ _ H) as [Es _] end.
    intros n x Hp. destruct x; cbn in Hp |- *; auto.
    destruct Hp as [-> Hfree].
    destruct (String.eqb_spec service n) as [E|N]; [now (right; left)|].
    left. split; [reflexivity|]. rewrite Es. intros s Hs.
    apply in_app_iff in Hs. destruct Hs as [Hs|[<-|[]]]; [now apply Hfree|].
    exact N.
  - cbn. intros n [-> _]. now left.
  - (* the upsert *)
    exact Hcon.
  - apply incl_refl.
  - destruct Hok as (Hin & Hid & Hs).
    intros a Ha Hida. apply upsert_inv in Ha. destruct Ha as [->|Ha].
    + exists service. now split.
    + now apply Hrows.
  - exact I.
  - intros n (a & Ha & Hida & Hsa).
    destruct (upsert_keeps row a (db w) Ha) as (a' & Ha' & E1 & E2).
    exists a'. rewrite E1, E2. now repeat split.
  - intros n x Hp. left. eapply pending_for_same_services; [|exact Hp].
    reflexivity.
  - destruct Hok as (Hin & Hid & Hs).
    cbn. intros n ->. right. exists row. repeat split; trivial.
    apply upsert_In.
  - (* a settled chain *)
    exact Hcon.
  - apply incl_refl.
  - exact Hrows.
  - now apply (@rec_chains _ _ _ R _ _ Hi).
  - trivial.
  - auto.
  - auto.
Qed.

Lemma reconciling_run (id : string) (names : list string)
    (schedule : list Event) (w : World) :
  fault_free schedule -> reconciling id names w ->
  reconciling id names (run schedule w).
Proof.
  revert w. induction schedule as [|e rest IH]; intros w Hf R; [exact R|].
  rewrite run_cons. apply IH.
  - intros e' He'. apply Hf. now right.
  - apply reconciling_step; [exact R|]. apply Hf. now left.
Qed.

(** ** From the handler to the settled world *)

Lemma settled_chain_ok (id : string) (names : list string) (d : Database)
    (c : Chain) :
  settled c = true -> chain_ok id names d c.
Proof. destruct c; cbn; trivial; discriminate. Qed.

Lemma settled_not_pending (n : string) (d : Database) (c : Chain) :
  settled c = true -> ~ pending_for n d c.
Proof. destruct c; cbn; auto; discriminate. Qed.

(** The handler establishes the invariant, also when chains of an earlier
    handling of the same document are still running.  (The handler is taken
    as one step: a chain answered between its two calls could as well have
    been answered before them, since chains do not read [hotels].) *)
Lemma reconciling_restart (key pid id : string) (names : list string)
    (now : Time) (w : World) :
  key <> "" -> constraints (db w) ->
  (forall i c, nth_error (chains w) i = Some c -> chain_ok id names (db w) c) ->
  reconciling id names
    (snd (hotelChanges key pid (written id names) now None None w)).
Proof.
  intros Hk Hcon Hold.
  destruct (@hotelChanges_written key pid id names now None None w Hk
              eq_refl eq_refl) as (_ & Hd & _ & _ & _ & Hc).
  cbv zeta in Hd, Hc. cbn [unless_failed] in Hd.
  set (w0 := snd (hotelChanges key pid (written id names) now None None w)) in *.
  constructor.
  - rewrite Hd. exact Hcon.
  - intros a Ha Hid. rewrite Hd in Ha.
    now apply hotels_services_delete_gone in Ha.
  - intros i c Hi. apply nth_error_In in Hi. rewrite Hc in Hi.
    apply in_app_iff in Hi. destruct Hi as [Hi|Hi].
    + apply In_nth_error in Hi. destruct Hi as [j Hj].
      apply chain_ok_mono with (d := db w); [|now apply (Hold j)].
      rewrite Hd. apply incl_refl.
    + apply in_map_iff in Hi. destruct Hi as [n [<- Hn]]. cbn. now split.
  - intros n Hn. right.
    assert (In (AwaitSelect id n) (chains w0)) as Hin.
    { rewrite Hc. apply in_or_app. right. now apply in_map. }
    apply In_nth_error in Hin. destruct Hin as [i Hi].
    exists i, (AwaitSelect id n). now split.
Qed.

Lemma reconciling_start (key pid id : string) (names : list string)
    (now : Time) (w : World) :
  key <> "" -> constraints (db w) -> quiescent w = true ->
  reconciling id names
    (snd (hotelChanges key pid (written id names) now None None w)).
Proof.
  intros Hk Hcon Hq. apply reconciling_restart; trivial.
  unfold quiescent in Hq. rewrite forallb_forall in Hq.
  intros i c Hi. apply settled_chain_ok. apply Hq.
  eapply nth_error_In; eassumption.
Qed.

Lemma In_associations (d : Database) (id : string) (sid : Z) :
  In sid (associations d id) <->
  exists a, In a (hotels_services d) /\ hs_hotel_id a = id
            /\ hs_service_id a = sid.
Proof.
  unfold associations. rewrite in_map_iff. split.
  - intros [a [E Ha]]. apply filter_In in Ha. destruct Ha as [Ha Hid].
    apply String.eqb_eq in Hid. now exists a.
  - intros [a (Ha & Hid & E)]. exists a. split; [exact E|].
    apply filter_In. split; [exact Ha|]. now apply String.eqb_eq.
Qed.

Lemma In_association_names (d : Database) (id n : string) :
  In n (association_names d id) <->
  exists a s, In a (hotels_services d) /\ hs_hotel_id a = id
              /\ service_of d (hs_service_id a) = Some s /\ name s = n.
Proof.
  unfold association_names. rewrite in_flat_map. split.
  - intros [a [Ha Hn]].
    destruct (String.eqb_spec (hs_hotel_id a) id) as [E|N]; [|contradiction].
    destruct (service_of d (hs_service_id a)) as [s|] eqn:Es; [|contradiction].
    destruct Hn as [<-|[]]. now exists a, s.
  - intros (a & s & Ha & Hid & Es & E). exists a. split; [exact Ha|].
    rewrite (proj2 (String.eqb_eq _ _) Hid), Es. now left.
Qed.

Lemma service_of_In (d : Database) (s : services_row) :
  NoDup (map id (services d)) -> In s (services d) ->
  service_of d (id s) = Some s.
Proof.
  unfold service_of. induction (services d) as [|x l IH]; cbn; [contradiction|].
  intros N Hin. inversion N as [|? ? Hx N']; subst.
  destruct (Z.eqb_spec (id x) (id s)) as [E|Ne].
  - destruct Hin as [->|Hin]; [reflexivity|].
    destruct Hx. rewrite E. now apply in_map.
  - destruct Hin as [->|Hin]; [congruence|]. now apply IH.
Qed.

Lemma service_of_Some (d : Database) (sid : Z) (s : services_row) :
  service_of d sid = Some s -> In s (services d) /\ id s = sid.
Proof.
  unfold service_of. intros H. apply find_some in H.
  destruct H as [Hin E]. now apply Z.eqb_eq in E.
Qed.

(** Once the chains have settled, the hotel's associations are the rows of
    [services] named in the document, and their names are the document's. *)
Lemma reconciled (id : string) (names : list string) (w : World) :
  reconciling id names w -> quiescent w = true ->
  (forall sid, In sid (associations (db w) id) <->
     exists n, In n names
       /\ In {| Supabase.id := sid; name := n |} (services (db w)))
  /\ (forall n, In n (association_names (db w) id) <-> In n names).
Proof.
  intros [(Nid & Nname & Hseq) Hrows Hch Hcov] Hq.
  unfold quiescent in Hq. rewrite forallb_forall in Hq.
  assert (forall n, In n names -> associated id n (db w)) as Hall.
  { intros n Hn. destruct (Hcov n Hn) as [Ha|(i & c & Hi & Hp)]; [exact Ha|].
    apply nth_error_In in Hi. now destruct (settled_not_pending n (db w) c (Hq c Hi)). }
  split.
  - intros sid. rewrite In_associations. split.
    + intros (a & Ha & Hid & <-). now apply Hrows.
    + intros (n & Hn & Hs). destruct (Hall n Hn) as (a & Ha & Hid & Hsa).
      exists a. repeat split; trivial.
      pose proof (NoDup_map_eq name _ _ _ Nname Hsa Hs eq_refl) as E.
      now injection E.
  - intros n. rewrite In_association_names. split.
    + intros (a & s & Ha & Hid & Es & <-).
      destruct (Hrows a Ha Hid) as (n & Hn & Hs).
      apply (service_of_In (db w) _ Nid) in Hs. cbn in Hs.
      rewrite Hs in Es. now injection Es as <-.
    + intros Hn. destruct (Hall n Hn) as (a & Ha & Hid & Hsa).
      exists a, {| Supabase.id := hs_service_id a; name := n |}.
      repeat split; trivial.
      now apply (service_of_In (db w) _ Nid) in Hsa.
Qed.

(** Rows of [services] are never removed. *)
Lemma transition_services_incl (now : Time) (d d' : Database)
    (fault : option Fault) (c c' : Chain) (tr : list TraceEvent) :
  transition now d fault c d' c' tr -> incl (services d) (services d').
Proof.
  intros T. destruct T; try apply incl_refl.
  match goal with H : existsb _ _ = false |- _ =>
    destruct (services_insert_new _ _ H) as [-> _] end.
  now apply incl_appl, incl_refl.
Qed.

Lemma step_services_incl (e : Event) (w : World) :
  incl (services (db w)) (services (db (step e w))).
Proof.
  destruct (nth_error (chains w) (ev_chain e)) as [c|] eqn:H.
  - destruct (step_transition e w H) as (d' & c' & tr & T & ->). cbn.
    eapply transition_services_incl; eassumption.
  - rewrite step_idle by assumption. apply incl_refl.
Qed.

Lemma run_services_incl (schedule : list Event) (w : World) :
  incl (services (db w)) (services (db (run schedule w))).
Proof.
  revert w. induction schedule as [|e rest IH]; intros w; [apply incl_refl|].
  rewrite run_cons. eapply incl_tran; [apply step_services_incl | apply IH].
Qed.

Lemma nil_of_no_element {A} (l : list A) : (forall x, ~ In x l) -> l = [].
Proof.
  destruct l as [|x l]; [reflexivity|]. intros H. destruct (H x). now left.
Qed.

(** ** Reconciling twice *)

(** C6.  Take a world at rest whose [services] table satisfies its
    constraints, and let no call be failed by the environment.  Handle the
    written document [names] of hotel [id] and let the store answer the
    chains in any order; handle the same document once more and let all
    chains settle.  Then the hotel's associations are the services named
    in the document.  If the chains of the first handling had settled
    before the second began, the hotel had these same associations then:
    the second handling has changed nothing.  For the empty document the
    hotel is left with no association. *)
Theorem reconcile_idempotent (key pid id : string) (names : list string)
    (now now' : Time) (w : World) (schedule schedule' : list Event) :
  key <> "" -> constraints (db w) -> quiescent w = true ->
  fault_free schedule -> fault_free schedule' ->
  let once :=
    run schedule
        (snd (hotelChanges key pid (written id names) now None None w)) in
  let twice :=
    run schedule'
        (snd (hotelChanges key pid (written id names) now' None None once)) in
  quiescent twice = true ->
  (forall n, In n (association_names (db twice) id) <-> In n names)
  /\ (quiescent once = true ->
      (forall n, In n (association_names (db once) id) <-> In n names)
      /\ (forall sid, In sid (associations (db twice) id)
                      <-> In sid (associations (db once) id))
      /\ (names = [] ->
          associations (db once) id = []
          /\ association_names (db once) id = [])).
Proof.
  intros Hk Hcon Hq Hf Hf' once twice Hq2.
  assert (reconciling id names once) as R1
    by (apply reconciling_run; [exact Hf | now apply reconciling_start]).
  assert (reconciling id names twice) as R2.
  { apply reconciling_run; [exact Hf'|].
    apply reconciling_restart; trivial.
    - apply (rec_constraints R1).
    - apply (rec_chains R1). }
  destruct (reconciled R2 Hq2) as [Hids2 Hnames2].
  split; [exact Hnames2|]. intros Hq1.
  destruct (reconciled R1 Hq1) as [Hids1 Hnames1].
  assert (incl (services (db once)) (services (db twice))) as Hincl.
  { unfold twice. eapply incl_tran; [|apply run_services_incl].
    destruct (@hotelChanges_written key pid id names now' None None once Hk
                eq_refl eq_refl) as (_ & Hd & _).
    cbv zeta in Hd. rewrite Hd. apply incl_refl. }
  split; [exact Hnames1|split].
  - intros sid. rewrite Hids1, Hids2. split.
    + intros (n & Hn & Hs). exists n. split; [exact Hn|].
      pose proof (proj2 (Hnames1 n) Hn) as Ha.
      apply In_association_names in Ha.
      destruct Ha as (a & s & _ & _ & Es & En).
      apply service_of_Some in Es. destruct Es as [Hin _].
      destruct (rec_constraints R2) as (_ & Nname & _).
      assert ({| Supabase.id := sid; name := n |} = s) as <-; [|exact Hin].
      apply (NoDup_map_eq name _ _ _ Nname Hs (Hincl _ Hin)). now rewrite En.
    + intros (n & Hn & Hs). exists n. auto.
  - intros ->. split; apply nil_of_no_element.
    + intros sid Hin. apply Hids1 in Hin. now destruct Hin as (n & [] & _).
    + intros n Hin. now apply Hnames1 in Hin.
Qed.

Lemma reconcile_idempotent_witness :
  let once :=
    run [answer 0; answer 1; answer 2; answer 1; answer 0; answer 1; answer 2]
        (snd (hotelChanges "key" "project" (written "H1" ["wifi"; "spa"; "wifi"])
                "2024-07-07T00:00:00.000Z" None None H1_world)) in
  let twice :=
    run [answer 3; answer 4; answer 5; answer 5; answer 4; answer 3]
        (snd (hotelChanges "key" "project" (written "H1" ["wifi"; "spa"; "wifi"])
                "2024-07-07T00:00:01.000Z" None None once)) in
  (forall n, In n (association_names (db twice) "H1")
             <-> In n ["wifi"; "spa"; "wifi"])
  /\ (forall sid, In sid (associations (db twice) "H1")
                  <-> In sid (associations (db once) "H1")).
Proof.
  intros once twice.
  destruct (@reconcile_idempotent "key" "project" "H1" ["wifi"; "spa"; "wifi"]
              "2024-07-07T00:00:00.000Z" "2024-07-07T00:00:01.000Z" H1_world
              [answer 0; answer 1; answer 2; answer 1; answer 0; answer 1; answer 2]
              [answer 3; answer 4; answer 5; answer 5; answer 4; answer 3])
    as (H1 & H2).
  - discriminate.
  - cbn. split; [|split].
    + repeat constructor; cbn; intuition; discriminate.
    + repeat constructor; cbn; intuition; discriminate.
    + intros s [<-|[<-|[]]]; cbn; lia.
  - reflexivity.
  - intros e He. repeat (destruct He as [<-|He]; [reflexivity|]). destruct He.
  - intros e He. repeat (destruct He as [<-|He]; [reflexivity|]). destruct He.
  - reflexivity.
  - split; [exact H1|]. now apply H2.
Defined.

(** ** The scenarios of the spec *)

Example scenario_filter_after_write :
  fst (filterService ["wifi"] "key" "project" None scenario_written)
  = inr ["H1"]
  /\ fst (filterService ["wifi"; "spa"] "key" "project" None scenario_written)
     = inr [].
Proof. split; reflexivity. Qed.

Example scenario_filter_after_delete :
  fst (filterService ["wifi"] "key" "project" None scenario_deleted) = inr []
  /\ hotels (db scenario_deleted) = []
  /\ hotels_services (db scenario_deleted) = [].
Proof. repeat split; reflexivity. Qed.

(** ** More on [filterService] *)

Lemma filterService_ok (services : list string) (key pid : string) (w : World) :
  services <> [] -> key <> "" -> pid <> "" ->
  filterService services key pid None w
  = (inr (spread_Set
            (map hd_hotel_id
                 (hotelData services (do_hotels_select_in services (db w))))),
     {| db := db w;
        trace := trace w ++ [Sent (hotels_select_in services)];
        log := log w; chains := chains w |}).
Proof.
  intros Hs Hk Hp. unfold filterService.
  destruct services as [|s rest]; [contradiction|]. cbn [length Nat.eqb].
  rewrite (falsy_false Hk), (falsy_false Hp). cbn. now rewrite app_nil_r.
Qed.

Lemma filterService_success (services : list string) (key pid : string)
    (fault : option Fault) (w w' : World) (result : list string) :
  filterService services key pid fault w = (inr result, w') ->
  services <> [] /\ key <> "" /\ pid <> "" /\ fault = None.
Proof.
  unfold filterService, falsy. destruct services as [|s rest]; [discriminate|].
  cbn [length Nat.eqb].
  destruct (String.eqb_spec key ""); [discriminate|].
  destruct (String.eqb_spec pid ""); [discriminate|].
  destruct fault as [[e|r]|]; [discriminate|discriminate|].
  intros _. repeat split; trivial. discriminate.
Qed.

Lemma embed_complete (names : list string) (d : Database) (h s : string) :
  In s names -> In s (association_names d h) ->
  exists e, In e (embed names d h) /\ e_name (e_services e) = s.
Proof.
  intros Hn Ha. apply In_association_names in Ha.
  destruct Ha as (a & row & Ha & Hid & Es & <-).
  exists {| e_hotel_id := hs_hotel_id a; e_service_id := hs_service_id a;
            e_services := {| e_name := name row |} |}.
  split; [|reflexivity].
  unfold embed. apply in_flat_map. exists a. split; [exact Ha|].
  rewrite (proj2 (String.eqb_eq _ _) Hid), Es.
  rewrite (proj2 (includes_In _ _) Hn). left. reflexivity.
Qed.

Lemma hotelData_complete (services : list string) (d : Database) (r : hotels_row) :
  services <> [] -> In r (hotels d) ->
  (forall s, In s services -> In s (association_names d (hotel_id r))) ->
  In (hotel_id r)
     (map hd_hotel_id (hotelData services (do_hotels_select_in services d))).
Proof.
  intros Hne Hr Hall.
  apply in_map_iff.
  exists {| hd_hotel_id := hotel_id r;
            hd_services := map (fun service => e_name (e_services service))
                               (embed services d (hotel_id r)) |}.
  split; [reflexivity|].
  unfold hotelData. apply filter_In. split.
  - apply in_map_iff.
    exists {| s_hotel_id := hotel_id r;
              s_hotels_services := embed services d (hotel_id r) |}.
    split; [reflexivity|].
    unfold do_hotels_select_in. apply filter_In. split.
    + apply in_map_iff. now exists r.
    + cbn. destruct services as [|s rest]; [contradiction|].
      destruct (@embed_complete (s :: rest) d (hotel_id r) s) as (e & He & _);
        [now left | apply Hall; now left |].
      now destruct (embed (s :: rest) d (hotel_id r)).
  - cbn. apply forallb_forall. intros s Hs. apply includes_In.
    destruct (@embed_complete services d (hotel_id r) s Hs (Hall s Hs))
      as (e & He & <-).
    apply in_map_iff. exists e. now split.
Qed.

(** X1.  Whenever [filterService] returns a list, the list holds exactly
    the hotels of the table that are associated with every required name,
    each once. *)
Theorem filterService_returns_exactly (services : list string)
    (key pid : string) (fault : option Fault) (w w' : World)
    (result : list string) :
  filterService services key pid fault w = (inr result, w') ->
  NoDup result
  /\ forall h,
       In h result <->
       (exists r, In r (hotels (db w)) /\ hotel_id r = h)
       /\ forall s, In s services -> In s (association_names (db w) h).
Proof.
  intros E.
  destruct (filterService_success _ _ _ _ _ E) as (Hs & Hk & Hp & ->).
  rewrite (filterService_ok w Hs Hk Hp) in E. injection E as <- _.
  split; [apply NoDup_spread_Set|]. intros h. rewrite In_spread_Set. split.
  - intros Hin. apply in_map_iff in Hin. destruct Hin as [hotel [<- Hin]].
    apply hotelData_sound in Hin. tauto.
  - intros [[r [Hr <-]] Hall]. now apply hotelData_complete.
Qed.

Lemma filterService_returns_exactly_witness :
  NoDup ["H1"; "H2"]
  /\ forall h,
       In h ["H1"; "H2"] <->
       (exists r, In r (hotels H1_H2_db) /\ hotel_id r = h)
       /\ forall s, In s ["wifi"] -> In s (association_names H1_H2_db h).
Proof.
  apply (@filterService_returns_exactly ["wifi"] "key" "project" None
           H1_H2_world
           {| db := H1_H2_db; trace := [Sent (hotels_select_in ["wifi"])];
              log := []; chains := [] |}
           ["H1"; "H2"]).
  reflexivity.
Defined.

Lemma includes_same (l l' : list string) (x : string) :
  (forall y, In y l <-> In y l') -> includes l x = includes l' x.
Proof.
  intros H. apply eq_iff_eq_true. now rewrite !includes_In.
Qed.

Lemma select_in_same (l l' : list string) (d : Database) :
  (forall y, In y l <-> In y l') ->
  do_hotels_select_in l d = do_hotels_select_in l' d.
Proof.
  intros H. unfold do_hotels_select_in. f_equal. apply map_ext. intros h.
  f_equal. unfold embed. apply flat_map_ext. intros a.
  destruct (hs_hotel_id a =? hotel_id h)%string; [|reflexivity].
  destruct (service_of d (hs_service_id a)); [|reflexivity].
  now rewrite (includes_same _ _ _ H).
Qed.

Lemma hotelData_same (l l' : list string) (data : list selected_hotel) :
  (forall y, In y l <-> In y l') -> hotelData l data = hotelData l' data.
Proof.
  intros H. unfold hotelData. apply filter_ext. intros hotel.
  apply eq_iff_eq_true. rewrite !forallb_forall.
  split; intros Hall s Hs; apply Hall; now apply H.
Qed.

(** X2.  What [filterService] returns or throws depends on the required
    names as a set only: two lists with the same elements, in whatever
    order and with whatever repetitions, give the same outcome. *)
Theorem filterService_same_names (services services' : list string)
    (key pid : string) (fault : option Fault) (w : World) :
  (forall s, In s services <-> In s services') ->
  fst (filterService services key pid fault w)
  = fst (filterService services' key pid fault w).
Proof.
  intros H. unfold filterService.
  destruct services as [|s rest], services' as [|s' rest'].
  - reflexivity.
  - destruct (proj2 (H s')). now left.
  - destruct (proj1 (H s)). now left.
  - cbn [length Nat.eqb].
    destruct (falsy key || falsy pid)%bool; [reflexivity|].
    destruct fault as [[e|r]|]; try reflexivity.
    cbn. now rewrite (select_in_same _ _ (db w) H), (hotelData_same _ _ _ H).
Qed.

Lemma filterService_same_names_witness :
  fst (filterService ["wifi"; "pool"] "key" "project" None H1_H2_world)
  = fst (filterService ["pool"; "wifi"; "pool"] "key" "project" None H1_H2_world).
Proof.
  apply (@filterService_same_names ["wifi"; "pool"] ["pool"; "wifi"; "pool"]
           "key" "project" None H1_H2_world).
  intros s. cbn. tauto.
Defined.

(** X3.  Requiring more names never adds a hotel: when [filterService]
    answers for a list, it answers for every non-empty part of the list
    too, and with at least the same hotels. *)
Theorem filterService_more_names_fewer_hotels (services services' : list string)
    (key pid : string) (fault : option Fault) (w w1 : World)
    (result' : list string) :
  services <> [] -> incl services services' ->
  filterService services' key pid fault w = (inr result', w1) ->
  exists result w2,
    filterService services key pid fault w = (inr result, w2)
    /\ incl result' result.
Proof.
  intros Hne Hincl E.
  destruct (filterService_success _ _ _ _ _ E) as (_ & Hk & Hp & ->).
  do 2 eexists. split; [now apply filterService_ok|].
  intros h Hh.
  destruct (@filterService_sound _ _ _ _ _ _ _ h E Hh) as ([r [Hr <-]] & _ & Hall).
  apply In_spread_Set. apply hotelData_complete; auto.
Qed.

Lemma filterService_more_names_fewer_hotels_witness :
  exists result w2,
    filterService ["wifi"] "key" "project" None H1_H2_world = (inr result, w2)
    /\ incl ["H1"] result.
Proof.
  apply (@filterService_more_names_fewer_hotels ["wifi"] ["wifi"; "pool"]
           "key" "project" None H1_H2_world
           {| db := H1_H2_db;
              trace := [Sent (hotels_select_in ["wifi"; "pool"])];
              log := []; chains := [] |}
           ["H1"]).
  - discriminate.
  - intros s [<-|[]]. now left.
  - reflexivity.
Defined.

(** X4.  [filterService] only reads: whatever its arguments and whatever
    the store answers, it leaves the tables, the log and the promise chains
    as they are, and it sends nothing or its one query. *)
Theorem filterService_reads_only (services : list string) (key pid : string)
    (fault : option Fault) (w : World) :
  let w' := snd (filterService services key pid fault w) in
  db w' = db w /\ log w' = log w /\ chains w' = chains w
  /\ (sent w' = sent w \/ sent w' = sent w ++ [hotels_select_in services]).
Proof.
  unfold filterService.
  destruct (Nat.eqb (length services) 0); [cbn; auto|].
  destruct (falsy key || falsy pid)%bool; [cbn; auto|].
  destruct fault as [[e|r]|]; cbn; repeat split; right;
    unfold sent; cbn; rewrite !sent_in_app; cbn; now rewrite ?app_nil_r.
Qed.

(** ** The two entry points of the filter *)

(** What [filterService] can throw. *)
Lemma filterService_outcomes (services : list string) (key pid : string)
    (fault : option Fault) (w : World) :
  (exists unique, fst (filterService services key pid fault w) = inr unique)
  \/ (exists e, fst (filterService services key pid fault w)
                = inl (Thrown_ServiceError e)
                /\ (ServiceError.code e = 422 \/ ServiceError.code e = 500))
  \/ (exists reason, fault = Some (Rejects reason)
                     /\ fst (filterService services key pid fault w)
                        = inl (Rejection reason)).
Proof.
  unfold filterService.
  destruct (Nat.eqb (length services) 0);
    [right; left; eexists; split; [reflexivity|now left]|].
  destruct (falsy key || falsy pid)%bool;
    [right; left; eexists; split; [reflexivity|now left]|].
  destruct fault as [[e|r]|]; cbn.
  - right; left. eexists. split; [reflexivity|now right].
  - right; right. now exists r.
  - left. eexists. reflexivity.
Qed.

(** X5.  Whenever [serviceFilterHttp] sends a response, it is either
    status 200 with one [{ hotel_id }] per hotel that [filterService]
    returns, or else the JSON of the [ServiceError] thrown, under the
    status that is the error's code, 422 or 500. *)
Theorem serviceFilterHttp_answers (query : option (list string))
    (key pid : string) (fault : option Fault) (w : World) (response : Response) :
  fst (serviceFilterHttp query key pid fault w) = inr response ->
  (exists unique,
     fst (filterService (services_or_default query) key pid fault w)
     = inr unique
     /\ status response = 200
     /\ body response
        = json_hotels (map (fun h => {| o_hotel_id := h |}) unique))
  \/ (exists e,
        fst (filterService (services_or_default query) key pid fault w)
        = inl (Thrown_ServiceError e)
        /\ status response = ServiceError.code e
        /\ (status response = 422 \/ status response = 500)
        /\ body response
           = json_ServiceError
               (ServiceError.code e, ServiceError.message e,
                ServiceError.stack e)).
Proof.
  unfold serviceFilterHttp, try_catch, bind.
  destruct (filterService_outcomes (services_or_default query) key pid fault w)
    as [[unique E]|[(e & E & Hc)|(reason & _ & E)]].
  - destruct (filterService _ key pid fault w) as [[x|x] w']; cbn in E;
      [discriminate|]. injection E as ->. cbn. intros [= <-].
    left. now exists unique.
  - destruct (filterService _ key pid fault w) as [[x|x] w']; cbn in E;
      [|discriminate]. injection E as ->. cbn. intros [= <-].
    right. exists e. cbn. auto.
  - destruct (filterService _ key pid fault w) as [[x|x] w']; cbn in E;
      [|discriminate]. injection E as ->. cbn. discriminate.
Qed.

Lemma serviceFilterHttp_answers_witness :
  exists e,
    fst (filterService ["wifi"] "key" "project"
           (Some (ErrorResult timeout_error)) H1_H2_world)
    = inl (Thrown_ServiceError e)
    /\ ServiceError.code e = 500.
Proof.
  destruct (@serviceFilterHttp_answers (Some ["wifi"]) "key" "project"
              (Some (ErrorResult timeout_error)) H1_H2_world
              {| status := 500;
                 body := json_ServiceError
                           (500, "canceling statement due to statement timeout",
                            Some "at PostgrestBuilder.then") |}
              eq_refl)
    as [(unique & F & _)|(e & F & Hs & _)].
  - discriminate F.
  - exists e. split; [exact F|]. now rewrite <- Hs.
Defined.

(** X6.  An HTTP request without the [services] parameter is treated as
    one with the empty list: [serviceFilterHttp] answers 422 with
    "No services provided" and leaves the world untouched, whatever the
    configuration and the store. *)
Theorem filter_without_services (query : option (list string))
    (key pid : string) (fault : option Fault) (w : World) :
  services_or_default query = [] ->
  serviceFilterHttp query key pid fault w
  = (inr {| status := 422;
            body := json_ServiceError (422, "No services provided", None) |},
     w).
Proof.
  intros H. unfold serviceFilterHttp, try_catch, bind.
  rewrite H. reflexivity.
Qed.

Lemma filter_without_services_witness :
  serviceFilterHttp None "" "" None H1_H2_world
  = (inr {| status := 422;
            body := json_ServiceError (422, "No services provided", None) |},
     H1_H2_world).
Proof.
  apply (@filter_without_services None "" "" None H1_H2_world). reflexivity.
Defined.

(** X7.  The HTTP function and the callable do the same to the world, and
    agree in what they report: the list the callable returns is the body
    the HTTP function sends with status 200; a [ServiceError] the callable
    throws is sent as JSON under its code; on any other exception the HTTP
    function sends nothing either. *)
Theorem serviceFilterHttp_as_serviceFilter (request : option (list string))
    (key pid : string) (fault : option Fault) (w : World) :
  snd (serviceFilterHttp request key pid fault w)
  = snd (serviceFilter request key pid fault w)
  /\ match fst (serviceFilter request key pid fault w) with
     | inr hotels =>
         fst (serviceFilterHttp request key pid fault w)
         = inr {| status := 200; body := json_hotels hotels |}
     | inl (Thrown_ServiceError e) =>
         fst (serviceFilterHttp request key pid fault w)
         = inr {| status := ServiceError.code e;
                  body := json_ServiceError (ServiceError.toJSON e) |}
     | inl _ =>
         exists exn, fst (serviceFilterHttp request key pid fault w) = inl exn
     end.
Proof.
  unfold serviceFilterHttp, serviceFilter, try_catch, bind.
  destruct (filterService _ key pid fault w) as [[[e|msg|reason]|unique] w'];
    cbn; split; try reflexivity; eexists; reflexivity.
Qed.

(** ** The handler, whatever happens *)

(** The handler on a written document, for all choices of the
    environment. *)
Lemma hotelChanges_written_any (key pid id : string) (names : list string)
    (now : Time) (fault1 fault2 : option Fault) (w : World) :
  key <> "" ->
  let r := hotelChanges key pid (written id names) now fault1 fault2 w in
  let row := {| hotel_id := id; updated_at := now |} in
  fst r = inr Returned
  /\ chains (snd r)
     = chains w ++ (if (rejects fault1 || rejects fault2)%bool then []
                    else map (AwaitSelect id) names)
  /\ db (snd r)
     = (if rejects fault1 then db w
        else unless_failed fault2 (do_hotels_services_delete id)
               (unless_failed fault1 (do_hotels_upsert row) (db w)))
  /\ sent (snd r)
     = sent w ++ hotels_upsert row
                 :: (if rejects fault1 then []
                     else hotels_services_delete id
                          :: (if rejects fault2 then []
                              else map services_select names))
  /\ log (snd r)
     = log w ++ match fault1, fault2 with
                | Some (Rejects reason), _
                | Some (ErrorResult _), Some (Rejects reason)
                | None, Some (Rejects reason) =>
                    [{| l_message := "error"; l_error := Some (Rejection reason) |}]
                | _, _ => []
                end.
Proof.
  intros Hk. unfold hotelChanges, written. cbn. rewrite (falsy_false Hk). cbn.
  destruct fault1 as [[e1|r1]|]; destruct fault2 as [[e2|r2]|].
  all: unfold try_catch, bind; cbn; rewrite ?array_map_per_service; cbn.
  all: rewrite ?Promise_all_undefined; unfold sent; cbn.
  all: rewrite !sent_in_app, ?sent_selects; cbn.
  all: rewrite <- ?app_assoc, ?app_nil_r; cbn.
  all: repeat split; reflexivity.
Qed.

(** The handler on a written document without the field [services]: the
    two calls are made, then [document.services.map] throws inside the
    [try] block, and the exception is logged. *)
Lemma hotelChanges_unlisted (key pid id : string) (now : Time)
    (fault1 fault2 : option Fault) (w : World) :
  key <> "" ->
  let r := hotelChanges key pid (written_without_services id) now
             fault1 fault2 w in
  let row := {| hotel_id := id; updated_at := now |} in
  fst r = inr Returned
  /\ chains (snd r) = chains w
  /\ db (snd r)
     = (if rejects fault1 then db w
        else unless_failed fault2 (do_hotels_services_delete id)
               (unless_failed fault1 (do_hotels_upsert row) (db w)))
  /\ sent (snd r)
     = sent w ++ hotels_upsert row
                 :: (if rejects fault1 then [] else [hotels_services_delete id])
  /\ exists exn,
       log (snd r) = log w ++ [{| l_message := "error"; l_error := Some exn |}].
Proof.
  intros Hk. unfold hotelChanges, written_without_services. cbn.
  rewrite (falsy_false Hk). cbn.
  destruct fault1 as [[e1|r1]|]; destruct fault2 as [[e2|r2]|].
  all: unfold try_catch, bind, sent; cbn.
  all: rewrite !sent_in_app; cbn.
  all: rewrite <- ?app_assoc, ?app_nil_r; cbn.
  all: repeat split; try reflexivity; eexists; reflexivity.
Qed.

(** The snapshot before the write plays no part. *)
Lemma hotelChanges_event (key pid : string) (change : Change) (id : string) :
  hotelChanges key pid {| event_data := Some change; params_hotelId := id |}
  = hotelChanges key pid
      match after change with
      | Some {| doc_services := Some names |} => written id names
      | Some {| doc_services := None |} => written_without_services id
      | None => deleted id
      end.
Proof. destruct change as [bef [[[names|]]|]]; reflexivity. Qed.

(** X9.  Once [hotelChanges] has reached the store, it neither throws nor
    stays suspended, whatever the store answers, rejections included; and
    it returns normally too when the event has no data or the key is
    missing. *)
Theorem hotelChanges_returns (key pid : string) (event : FirestoreEvent)
    (now : Time) (fault1 fault2 : option Fault) (w : World) :
  let r := hotelChanges key pid event now fault1 fault2 w in
  event_data event = None \/ key = "" \/ sent (snd r) <> sent w ->
  fst r = inr Returned.
Proof.
  cbv zeta. intros _.
  destruct event as [[change|] id]; [|reflexivity].
  destruct (String.eqb_spec key "") as [->|Hk]; [reflexivity|].
  rewrite hotelChanges_event. destruct (after change) as [[[names|]]|].
  - apply (@hotelChanges_written_any key pid id names now fault1 fault2 w Hk).
  - apply (@hotelChanges_unlisted key pid id now fault1 fault2 w Hk).
  - apply (@hotelChanges_deleted key pid id now fault1 fault2 w Hk).
Qed.

Lemma hotelChanges_returns_witness :
  fst (hotelChanges "key" "project" (written "H1" ["wifi"])
         "2024-08-08T00:00:00.000Z" (Some (ErrorResult timeout_error))
         (Some (Rejects "fetch failed")) H1_world)
  = inr Returned.
Proof.
  apply (@hotelChanges_returns "key" "project" (written "H1" ["wifi"])
           "2024-08-08T00:00:00.000Z" (Some (ErrorResult timeout_error))
           (Some (Rejects "fetch failed")) H1_world).
  right. right. vm_compute. discriminate.
Defined.

(** X10.  The configuration test of [hotelChanges] is a test of the key
    alone.  Without a key the handler logs "Supabase configuration is not
    set" and does nothing else.  With a key it logs no such complaint,
    whatever the project id, the empty one included: the URL built from
    the project id is never an empty string, so the second half of the
    test never fires. *)
Theorem hotelChanges_configuration (key pid : string) (change : Change)
    (id : string) (now : Time) (fault1 fault2 : option Fault) (w : World) :
  let event := {| event_data := Some change; params_hotelId := id |} in
  let r := hotelChanges key pid event now fault1 fault2 w in
  (key = "" ->
   r = (inr Returned,
        {| db := db w; trace := trace w;
           log := log w ++ [{| l_message := "Supabase configuration is not set";
                               l_error := None |}];
           chains := chains w |}))
  /\ (key <> "" ->
      forall entry, In entry (log (snd r)) ->
        In entry (log w) \/ l_message entry = "error")
  /\ falsy ("https://" ++ pid ++ ".supabase.co")%string = false.
Proof.
  cbv zeta. split; [|split; [|reflexivity]].
  - intros ->. reflexivity.
  - intros Hk entry. rewrite hotelChanges_event.
    destruct (after change) as [[[names|]]|].
    + destruct (@hotelChanges_written_any key pid id names now fault1 fault2 w Hk)
        as (_ & _ & _ & _ & Hl).
      cbv zeta in Hl. rewrite Hl. intros Hin. apply in_app_iff in Hin.
      destruct Hin as [Hin|Hin]; [now left|]. right.
      destruct fault1 as [[?|?]|]; destruct fault2 as [[?|?]|]; cbn in Hin;
        try contradiction; destruct Hin as [<-|[]]; reflexivity.
    + destruct (@hotelChanges_unlisted key pid id now fault1 fault2 w Hk)
        as (_ & _ & _ & _ & exn & Hl).
      cbv zeta in Hl. rewrite Hl. intros Hin. apply in_app_iff in Hin.
      destruct Hin as [Hin|[<-|[]]]; [now left|now right].
    + destruct (@hotelChanges_deleted key pid id now fault1 fault2 w Hk)
        as (_ & _ & _ & Hl).
      cbv zeta in Hl. rewrite Hl. intros Hin. apply in_app_iff in Hin.
      destruct Hin as [Hin|Hin]; [now left|]. right.
      destruct fault1 as [[?|?]|]; destruct fault2 as [[?|?]|]; cbn in Hin;
        try contradiction; destruct Hin as [<-|[]]; reflexivity.
Qed.

Lemma hotelChanges_configuration_witness :
  hotelChanges "" "project" (written "H1" ["wifi"]) "2024-08-08T00:00:00.000Z"
    None None H1_world
  = (inr Returned,
     {| db := H1_db; trace := [];
        log := [{| l_message := "Supabase configuration is not set";
                   l_error := None |}];
        chains := [] |})
  /\ forall entry,
       In entry (log (snd (hotelChanges "key" "" (written "H1" ["wifi"])
                             "2024-08-08T00:00:00.000Z" None
                             (Some (Rejects "fetch failed")) H1_world))) ->
       In entry [] \/ l_message entry = "error".
Proof.
  split.
  - apply (@hotelChanges_configuration "" "project"
             {| before := None;
                after := Some {| doc_services := Some ["wifi"] |} |}
             "H1" "2024-08-08T00:00:00.000Z" None None H1_world).
    reflexivity.
  - destruct (@hotelChanges_configuration "key" ""
                {| before := None;
                   after := Some {| doc_services := Some ["wifi"] |} |}
                "H1" "2024-08-08T00:00:00.000Z" None
                (Some (Rejects "fetch failed")) H1_world)
      as (_ & H & _).
    apply H. discriminate.
Defined.

(** X11.  A rejection stops the handling of a written document where it
    occurs, and nothing is undone.  If the upsert of the hotel rejects,
    the tables are as before and no other request is sent.  If the delete
    of the associations rejects, the old associations stay, the hotel's row
    stays upserted (when that call succeeded), and no chain is started.  In
    both cases the rejection is logged. *)
Theorem hotelChanges_written_aborts (key pid id : string) (names : list string)
    (now : Time) (fault1 fault2 : option Fault) (reason : string) (w : World) :
  key <> "" ->
  let r := hotelChanges key pid (written id names) now fault1 fault2 w in
  let row := {| hotel_id := id; updated_at := now |} in
  let entry := {| l_message := "error"; l_error := Some (Rejection reason) |} in
  (fault1 = Some (Rejects reason) ->
   db (snd r) = db w /\ chains (snd r) = chains w
   /\ sent (snd r) = sent w ++ [hotels_upsert row]
   /\ log (snd r) = log w ++ [entry])
  /\ (rejects fault1 = false -> fault2 = Some (Rejects reason) ->
      hotels_services (db (snd r)) = hotels_services (db w)
      /\ (fault1 = None -> In row (hotels (db (snd r))))
      /\ chains (snd r) = chains w
      /\ sent (snd r) = sent w ++ [hotels_upsert row; hotels_services_delete id]
      /\ log (snd r) = log w ++ [entry]).
Proof.
  intros Hk.
  destruct (@hotelChanges_written_any key pid id names now fault1 fault2 w Hk)
    as (_ & Hc & Hd & Hs & Hl).
  cbv zeta in *.
  remember (hotelChanges key pid (written id names) now fault1 fault2 w) as r
    eqn:Er.
  clear Er. split.
  - intros E. rewrite E in *. cbn in Hc, Hd, Hs, Hl.
    rewrite app_nil_r in Hc. auto.
  - intros Hr E. rewrite E, Hr in *. rewrite orb_true_r, app_nil_r in Hc.
    cbn in Hd, Hs. rewrite Hd, Hs, Hl. repeat split; trivial.
    + now destruct fault1 as [[?|?]|].
    + intros ->. cbn. apply hotels_upsert_In.
    + now destruct fault1 as [[?|?]|].
Qed.

Lemma hotelChanges_written_aborts_witness :
  let r := hotelChanges "key" "project" (written "H1" ["spa"])
             "2024-08-08T00:00:00.000Z" None (Some (Rejects "fetch failed"))
             H1_world in
  hotels_services (db (snd r)) = hotels_services H1_db
  /\ chains (snd r) = []
  /\ log (snd r) = [{| l_message := "error";
                       l_error := Some (Rejection "fetch failed") |}].
Proof.
  destruct (@hotelChanges_written_aborts "key" "project" "H1" ["spa"]
              "2024-08-08T00:00:00.000Z" None (Some (Rejects "fetch failed"))
              "fetch failed" H1_world) as [_ H]; [discriminate|].
  destruct H as (Hh & _ & Hc & _ & Hl); try reflexivity.
  cbv zeta. auto.
Defined.

(** ** The chains settle *)

Lemma transition_answers_needed (now : Time) (d d' : Database)
    (fault : option Fault) (c c' : Chain) (tr : list TraceEvent) :
  transition now d fault c d' c' tr ->
  (answers_needed c' <= answers_needed c - 1)%nat.
Proof.
  intros T. destruct T; cbn; try lia.
  destruct c; cbn in *; try discriminate; lia.
Qed.

(** A step changes the chain it answers, and no other. *)
Lemma step_chains (e : Event) (w : World) (j : nat) (c : Chain) :
  nth_error (chains w) j = Some c ->
  exists c',
    nth_error (chains (step e w)) j = Some c'
    /\ (answers_needed c'
        <= answers_needed c - (if Nat.eqb (ev_chain e) j then 1 else 0))%nat
    /\ (ev_chain e <> j -> c' = c).
Proof.
  intros Hj.
  destruct (nth_error (chains w) (ev_chain e)) as [ce|] eqn:Hi.
  - destruct (step_transition e w Hi) as (d' & c' & tr & T & ->). cbn.
    destruct (Nat.eqb_spec (ev_chain e) j) as [E|N].
    + subst j. rewrite Hi in Hj. injection Hj as <-. exists c'.
      split; [eapply nth_error_assign_same; eassumption|].
      split; [|congruence]. eapply transition_answers_needed; eassumption.
    + exists c. rewrite nth_error_assign_other by congruence.
      split; [assumption|]. split; [lia|reflexivity].
  - rewrite step_idle by assumption. exists c. split; [assumption|].
    split; [|reflexivity].
    destruct (Nat.eqb_spec (ev_chain e) j) as [E|N]; [congruence|lia].
Qed.

Lemma run_chains (schedule : list Event) (w : World) (j : nat) (c : Chain) :
  nth_error (chains w) j = Some c ->
  exists c',
    nth_error (chains (run schedule w)) j = Some c'
    /\ (answers_needed c' <= answers_needed c - answers_to j schedule)%nat.
Proof.
  revert w c. induction schedule as [|e rest IH]; intros w c Hj.
  - exists c. split; [assumption|]. cbn. lia.
  - rewrite run_cons.
    destruct (step_chains e w j Hj) as (c1 & H1 & Hle & _).
    destruct (IH _ _ H1) as (c' & H' & Hle').
    exists c'. split; [assumption|].
    unfold answers_to in *. cbn [filter].
    destruct (Nat.eqb (ev_chain e) j); cbn [length]; lia.
Qed.

Lemma needs_nothing_settled (c : Chain) : answers_needed c = 0%nat -> settled c = true.
Proof. destruct c; cbn; congruence. Qed.

Lemma answers_needed_bound (c : Chain) : (answers_needed c <= 3)%nat.
Proof. destruct c; cbn; lia. Qed.

(** X12.  The chains cannot hang: once the store has answered every chain
    three times, in any order and with any faults, all chains have
    settled. *)
Theorem run_settles (schedule : list Event) (w : World) :
  (forall j, (j < length (chains w))%nat -> (3 <= answers_to j schedule)%nat) ->
  quiescent (run schedule w) = true.
Proof.
  intros Hall. unfold quiescent. apply forallb_forall. intros c' Hin.
  apply In_nth_error in Hin. destruct Hin as [j Hj].
  assert (j < length (chains w))%nat as Hlt.
  { destruct (run_counts schedule w) as (_ & _ & _ & <-).
    apply nth_error_Some. congruence. }
  destruct (nth_error (chains w) j) as [c|] eqn:Hc;
    [|apply nth_error_None in Hc; lia].
  destruct (run_chains schedule w j Hc) as (c'' & Hj' & Hle).
  rewrite Hj in Hj'. injection Hj' as <-.
  apply needs_nothing_settled.
  pose proof (answers_needed_bound c). specialize (Hall j Hlt). lia.
Qed.

Lemma run_settles_witness :
  quiescent
    (run [answer_with 0 None; answer_with 1 (Some (ErrorResult timeout_error));
          answer_with 1 None; answer_with 0 (Some (Rejects "fetch failed"));
          answer_with 1 None; answer_with 0 None]
         race_start) = true.
Proof.
  apply (@run_settles
           [answer_with 0 None; answer_with 1 (Some (ErrorResult timeout_error));
            answer_with 1 None; answer_with 0 (Some (Rejects "fetch failed"));
            answer_with 1 None; answer_with 0 None]
           race_start).
  intros [|[|j]] Hj; cbn in *; lia.
Defined.

Lemma assign_unchanged {A} (i : nat) (x : A) (l : list A) :
  nth_error l i = Some x -> assign i x l = l.
Proof.
  revert i. induction l as [|y l IH]; intros [|i]; cbn; try discriminate.
  - now intros [= ->].
  - intros H. now rewrite IH.
Qed.

Lemma step_settled (e : Event) (w : World) (c : Chain) :
  nth_error (chains w) (ev_chain e) = Some c -> settled c = true ->
  step e w = w.
Proof.
  intros Hi Hs. unfold step. rewrite Hi.
  destruct c; try discriminate; cbn; unfold with_chains; cbn;
    rewrite (assign_unchanged _ _ Hi); now destruct w.
Qed.

(** A world whose chains have all settled is final: whatever the
    store answers afterwards changes nothing, neither in the tables nor in
    the trace nor in the log. *)
Lemma run_quiescent (schedule : list Event) (w : World) :
  quiescent w = true -> run schedule w = w.
Proof.
  intros Hq. induction schedule as [|e rest IH]; [reflexivity|].
  rewrite run_cons.
  destruct (nth_error (chains w) (ev_chain e)) as [c|] eqn:Hi.
  - rewrite (step_settled e w Hi); [exact IH|].
    unfold quiescent in Hq. rewrite forallb_forall in Hq. apply Hq.
    eapply nth_error_In; eassumption.
  - rewrite step_idle by assumption. exact IH.
Qed.

Lemma run_quiescent_witness :
  run [answer 0; answer 1; answer_with 0 (Some (Rejects "fetch failed"))]
      scenario_written
  = scenario_written.
Proof.
  apply (@run_quiescent
           [answer 0; answer 1; answer_with 0 (Some (Rejects "fetch failed"))]
           scenario_written).
  reflexivity.
Defined.

(** ** How many requests a write costs *)

Lemma sum_assign {A} (f : A -> nat) (i : nat) (c c' : A) (l : list A) :
  nth_error l i = Some c ->
  (list_sum (map f (assign i c' l)) + f c = list_sum (map f l) + f c')%nat.
Proof.
  unfold list_sum.
  revert i. induction l as [|x l IH]; intros [|i]; cbn; try discriminate.
  - intros [= ->]. lia.
  - intros H. specialize (IH i H). lia.
Qed.

Lemma transition_requests (now : Time) (d d' : Database) (fault : option Fault)
    (c c' : Chain) (tr : list TraceEvent) :
  transition now d fault c d' c' tr ->
  (length (sent_in tr) + requests_left c' <= requests_left c)%nat.
Proof. intros T. destruct T; cbn; lia. Qed.

Lemma run_requests (schedule : list Event) (w : World) :
  (length (sent (run schedule w))
   + list_sum (map requests_left (chains (run schedule w)))
   <= length (sent w) + list_sum (map requests_left (chains w)))%nat.
Proof.
  revert w. induction schedule as [|e rest IH]; intros w; [cbn; lia|].
  rewrite run_cons. specialize (IH (step e w)).
  enough (length (sent (step e w))
          + list_sum (map requests_left (chains (step e w)))
          <= length (sent w) + list_sum (map requests_left (chains w)))%nat by lia.
  clear IH.
  destruct (nth_error (chains w) (ev_chain e)) as [c|] eqn:Hi.
  - destruct (step_transition e w Hi) as (d' & c' & tr & T & ->).
    apply transition_requests in T.
    pose proof (sum_assign requests_left (ev_chain e) c' _ Hi) as Hsum.
    unfold sent, list_sum in *. cbn. rewrite sent_in_app, length_app. lia.
  - rewrite step_idle by assumption. lia.
Qed.

Lemma settled_requests_left (l : list Chain) :
  forallb settled l = true -> list_sum (map requests_left l) = 0%nat.
Proof.
  induction l as [|c l IH]; cbn; [reflexivity|].
  intros H. apply andb_true_iff in H. destruct H as [Hc Hl].
  unfold list_sum in *. rewrite (IH Hl).
  destruct c; cbn in *; try discriminate; reflexivity.
Qed.

(** X13.  The handling of a written document costs at most two requests
    plus three per listed service (lookup, insert, upsert), however the
    store answers and however long one waits. *)
Theorem written_requests_bound (key pid id : string) (names : list string)
    (now : Time) (fault1 fault2 : option Fault) (schedule : list Event)
    (w : World) :
  key <> "" -> quiescent w = true ->
  (length (sent (run schedule
                     (snd (hotelChanges key pid (written id names) now
                             fault1 fault2 w))))
   <= length (sent w) + 2 + 3 * length names)%nat.
Proof.
  intros Hk Hq.
  destruct (@hotelChanges_written_any key pid id names now fault1 fault2 w Hk)
    as (_ & Hc & _ & Hs & _).
  cbv zeta in Hc, Hs.
  remember (snd (hotelChanges key pid (written id names) now fault1 fault2 w))
    as w0 eqn:E. clear E.
  pose proof (run_requests schedule w0) as Hrun.
  rewrite Hc, Hs, map_app, list_sum_app, length_app in Hrun.
  rewrite (settled_requests_left _ Hq) in Hrun.
  assert (list_sum (map requests_left (map (AwaitSelect id) names))
          = 2 * length names)%nat as Hn
    by (clear; unfold list_sum; induction names; cbn in *; lia).
  unfold list_sum in *.
  destruct (rejects fault1), (rejects fault2); cbn in Hrun;
    rewrite ?length_map, ?Hn in Hrun; lia.
Qed.

Lemma written_requests_bound_witness :
  (length (sent (run [answer 0; answer 1; answer 2; answer 2;
                      answer 0; answer 1; answer 2]
                     (snd (hotelChanges "key" "project"
                             (written "H1" ["wifi"; "wifi"; "spa"])
                             "2024-06-06T00:00:00.000Z" None None H1_world))))
   <= length (sent H1_world) + 2 + 3 * 3)%nat.
Proof.
  apply (@written_requests_bound "key" "project" "H1" ["wifi"; "wifi"; "spa"]
           "2024-06-06T00:00:00.000Z" None None
           [answer 0; answer 1; answer 2; answer 2; answer 0; answer 1; answer 2]
           H1_world).
  - discriminate.
  - reflexivity.
Defined.

(** ** Who writes which table *)

Lemma transition_hotels (now : Time) (d d' : Database) (fault : option Fault)
    (c c' : Chain) (tr : list TraceEvent) :
  transition now d fault c d' c' tr -> hotels d' = hotels d.
Proof.
  intros T. destruct T; try reflexivity.
  unfold do_services_insert.
  match goal with H : existsb _ _ = false |- _ => now rewrite H end.
Qed.

Lemma run_hotels (schedule : list Event) (w : World) :
  hotels (db (run schedule w)) = hotels (db w).
Proof.
  revert w. induction schedule as [|e rest IH]; intros w; [reflexivity|].
  rewrite run_cons, IH.
  destruct (nth_error (chains w) (ev_chain e)) as [c|] eqn:Hi.
  - destruct (step_transition e w Hi) as (d' & c' & tr & T & ->). cbn.
    eapply transition_hotels; eassumption.
  - now rewrite step_idle.
Qed.

Lemma rows_of_delete_other (id id' : string) (d : Database) :
  id' <> id ->
  rows_of (do_hotels_services_delete id d) id' = rows_of d id'.
Proof.
  intros Hne. unfold rows_of, do_hotels_services_delete. cbn.
  induction (hotels_services d) as [|a l IH]; cbn; [reflexivity|].
  destruct (String.eqb_spec (hs_hotel_id a) id) as [E|N]; cbn.
  - destruct (String.eqb_spec (hs_hotel_id a) id'); [congruence|exact IH].
  - now rewrite IH.
Qed.

Lemma rows_of_upsert_other (row : hotels_services_row) (id' : string)
    (d : Database) :
  hs_hotel_id row <> id' ->
  rows_of (do_hotels_services_upsert row d) id' = rows_of d id'.
Proof.
  intros Hne. apply String.eqb_neq in Hne.
  unfold rows_of, do_hotels_services_upsert. cbn.
  destruct (pkey_hotel_service (schema d) && existsb _ (hotels_services d))%bool.
  - induction (hotels_services d) as [|a l IH]; cbn; [reflexivity|].
    destruct (String.eqb_spec (hs_hotel_id a) (hs_hotel_id row)) as [E|N]; cbn.
    + destruct (hs_service_id a =? hs_service_id row).
      * rewrite Hne, IH. now rewrite E, Hne.
      * now rewrite IH.
    + now rewrite IH.
  - rewrite filter_app. cbn. rewrite Hne. apply app_nil_r.
Qed.

(** What the handler does to the tables and the pool, for every input. *)
Lemma hotelChanges_effect (key pid : string) (event : FirestoreEvent)
    (now : Time) (fault1 fault2 : option Fault) (w : World) :
  let w' := snd (hotelChanges key pid event now fault1 fault2 w) in
  services (db w') = services (db w)
  /\ (forall id', id' <> params_hotelId event ->
        rows_of (db w') id' = rows_of (db w) id')
  /\ exists names,
       chains w' = chains w ++ map (AwaitSelect (params_hotelId event)) names.
Proof.
  destruct event as [[change|] id]; cbn [params_hotelId];
    [|cbn; repeat split; exists []; now rewrite app_nil_r].
  destruct (String.eqb_spec key "") as [->|Hk];
    [cbn; repeat split; exists []; now rewrite app_nil_r|].
  rewrite hotelChanges_event. destruct (after change) as [[[names|]]|].
  - destruct (@hotelChanges_written_any key pid id names now fault1 fault2 w Hk)
      as (_ & Hc & Hd & _).
    cbv zeta in *. rewrite Hd. split; [|split].
    + destruct fault1 as [[?|?]|], fault2 as [[?|?]|]; reflexivity.
    + intros id' Hne.
      destruct fault1 as [[?|?]|], fault2 as [[?|?]|];
        cbn [unless_failed rejects];
        rewrite ?rows_of_delete_other by assumption; reflexivity.
    + exists (if (rejects fault1 || rejects fault2)%bool then [] else names).
      rewrite Hc. now destruct (rejects fault1 || rejects fault2)%bool.
  - destruct (@hotelChanges_unlisted key pid id now fault1 fault2 w Hk)
      as (_ & Hc & Hd & _).
    cbv zeta in *. rewrite Hd. split; [|split].
    + destruct fault1 as [[?|?]|], fault2 as [[?|?]|]; reflexivity.
    + intros id' Hne.
      destruct fault1 as [[?|?]|], fault2 as [[?|?]|];
        cbn [unless_failed rejects];
        rewrite ?rows_of_delete_other by assumption; reflexivity.
    + exists []. rewrite Hc. now rewrite app_nil_r.
  - destruct (@hotelChanges_deleted key pid id now fault1 fault2 w Hk)
      as (_ & _ & Hd & _).
    cbv zeta in *. rewrite Hd. split; [|split].
    + destruct fault1 as [[?|?]|], fault2 as [[?|?]|]; reflexivity.
    + intros id' Hne.
      destruct fault1 as [[?|?]|], fault2 as [[?|?]|];
        cbn [unless_failed rejects];
        rewrite ?rows_of_delete_other by assumption; reflexivity.
    + exists []. rewrite app_nil_r.
      unfold hotelChanges, deleted. cbn. rewrite (falsy_false Hk). cbn.
      destruct fault1 as [[?|?]|], fault2 as [[?|?]|]; reflexivity.
Qed.

(** X14.  Each table has its writer.  The handler never writes [services];
    the chains never write [hotels]; and over the handling of any event
    and any answers of the store, failures included, no row of [services]
    is removed or altered. *)
Theorem tables_writers (key pid : string) (event : FirestoreEvent)
    (now : Time) (fault1 fault2 : option Fault) (schedule : list Event)
    (w : World) :
  let w0 := snd (hotelChanges key pid event now fault1 fault2 w) in
  services (db w0) = services (db w)
  /\ hotels (db (run schedule w0)) = hotels (db w0)
  /\ incl (services (db w)) (services (db (run schedule w0))).
Proof.
  cbv zeta.
  destruct (hotelChanges_effect key pid event now fault1 fault2 w) as (Hs & _).
  split; [exact Hs|]. split; [apply run_hotels|].
  rewrite <- Hs. apply run_services_incl.
Qed.

(** ** One hotel at a time *)

Lemma In_assign {A} (i : nat) (x y : A) (l : list A) :
  In y (assign i x l) -> y = x \/ In y l.
Proof.
  revert i. induction l as [|z l IH]; intros [|i]; cbn; try tauto.
  - intuition.
  - intros [->|H]; [tauto|]. destruct (IH i H); tauto.
Qed.

Lemma transition_isolated (id id' : string) (now : Time) (d d' : Database)
    (fault : option Fault) (c c' : Chain) (tr : list TraceEvent) :
  id' <> id -> works_for id c ->
  transition now d fault c d' c' tr ->
  works_for id c' /\ rows_of d' id' = rows_of d id'.
Proof.
  intros Hne Hw T. destruct T; cbn in *; auto.
  - split; [exact Hw|]. unfold rows_of.
    match goal with H : existsb _ _ = false |- _ =>
      destruct (services_insert_new _ _ H) as [_ ->] end.
    reflexivity.
  - split; [exact I|]. apply rows_of_upsert_other. congruence.
Qed.

Lemma run_isolated (id id' : string) (schedule : list Event) (w : World) :
  id' <> id -> (forall c, In c (chains w) -> works_for id c) ->
  rows_of (db (run schedule w)) id' = rows_of (db w) id'.
Proof.
  intros Hne. revert w. induction schedule as [|e rest IH]; intros w Hall;
    [reflexivity|].
  rewrite run_cons.
  destruct (nth_error (chains w) (ev_chain e)) as [c|] eqn:Hi;
    [|rewrite step_idle by assumption; now apply IH].
  destruct (step_transition e w Hi) as (d' & c' & tr & T & E).
  destruct (transition_isolated Hne (Hall c (nth_error_In _ _ Hi)) T) as [Hw Hr].
  rewrite IH; rewrite E; cbn; [exact Hr|].
  intros x Hx. apply In_assign in Hx. destruct Hx as [->|Hx]; auto.
Qed.

(** X15.  The handling of an event of one hotel leaves the rows of every
    other hotel in [hotels_services] untouched, whatever the store answers
    and in whatever order, provided the chains still running when the
    event arrives belong to that same hotel. *)
Theorem other_hotels_untouched (key pid : string) (event : FirestoreEvent)
    (now : Time) (fault1 fault2 : option Fault) (schedule : list Event)
    (w : World) (id' : string) :
  (forall c, In c (chains w) -> works_for (params_hotelId event) c) ->
  id' <> params_hotelId event ->
  rows_of (db (run schedule
                   (snd (hotelChanges key pid event now fault1 fault2 w)))) id'
  = rows_of (db w) id'.
Proof.
  intros Hall Hne.
  destruct (hotelChanges_effect key pid event now fault1 fault2 w)
    as (_ & Hrows & names & Hc).
  cbv zeta in *.
  rewrite (@run_isolated (params_hotelId event) id'); [now apply Hrows|exact Hne|].
  intros c Hin. rewrite Hc in Hin. apply in_app_iff in Hin.
  destruct Hin as [Hin|Hin]; [now apply Hall|].
  apply in_map_iff in Hin. now destruct Hin as [n [<- _]].
Qed.

Lemma other_hotels_untouched_witness :
  rows_of (db (run [answer 0; answer 0; answer 0]
                   (snd (hotelChanges "key" "project" (written "H1" ["spa"])
                           "2024-09-09T00:00:00.000Z" None None H1_H2_world))))
          "H2"
  = rows_of H1_H2_db "H2".
Proof.
  apply (@other_hotels_untouched "key" "project" (written "H1" ["spa"])
           "2024-09-09T00:00:00.000Z" None None [answer 0; answer 0; answer 0]
           H1_H2_world "H2").
  - intros c [].
  - discriminate.
Defined.

(** X16.  A deleted hotel stays out of the filter: once the delete of its
    row in [hotels] has succeeded, no answer of the store to chains still
    running for it, and no failure of the second delete, makes
    [filterService] return it. *)
Theorem deleted_hotel_not_returned (key pid id : string) (now : Time)
    (fault2 : option Fault) (schedule : list Event) (w : World)
    (services : list string) (key' pid' : string) (fault : option Fault)
    (result : list string) (w' : World) :
  key <> "" ->
  filterService services key' pid' fault
    (run schedule (snd (hotelChanges key pid (deleted id) now None fault2 w)))
  = (inr result, w') ->
  ~ In id result.
Proof.
  intros Hk E Hin.
  destruct (@filterService_sound _ _ _ _ _ _ _ _ E Hin) as ([r [Hr Hid]] & _).
  rewrite run_hotels in Hr.
  destruct (@hotelChanges_deleted key pid id now None fault2 w Hk)
    as (_ & _ & Hd & _).
  cbv zeta in Hd. rewrite Hd in Hr. cbn [rejects unless_failed] in Hr.
  assert (In r (hotels (do_hotels_delete id (db w)))) as Hr'
    by (destruct fault2 as [[?|?]|]; exact Hr).
  now apply hotels_delete_gone in Hr'.
Qed.

Lemma deleted_hotel_not_returned_witness : ~ In "H1" ["H2"].
Proof.
  apply (@deleted_hotel_not_returned "key" "project" "H1"
           "2024-09-09T00:00:01.000Z" (Some (ErrorResult timeout_error))
           [answer 0; answer 0; answer 0]
           (snd (hotelChanges "key" "project" (written "H1" ["wifi"])
                   "2024-09-09T00:00:00.000Z" None None H1_H2_world))
           ["wifi"] "key" "project" None ["H2"]
           (snd (filterService ["wifi"] "key" "project" None
                   (run [answer 0; answer 0; answer 0]
                      (snd (hotelChanges "key" "project" (deleted "H1")
                              "2024-09-09T00:00:01.000Z" None
                              (Some (ErrorResult timeout_error))
                              (snd (hotelChanges "key" "project"
                                      (written "H1" ["wifi"])
                                      "2024-09-09T00:00:00.000Z" None None
                                      H1_H2_world)))))))).
  - discriminate.
  - reflexivity.
Defined.

(** ** From the document to the filter *)

(** X17.  Write, then filter.  Take the handling of a written document
    in a world at rest, with the constraints of [services], its two calls
    succeeding and the handler returning, no call of the chains failed by
    the environment, and the chains settled in whatever order.  Whenever
    [filterService] then returns a list, the hotel is in it exactly when
    the document lists all the required names. *)
Theorem written_then_filtered (key pid id : string) (names : list string)
    (now : Time) (schedule : list Event) (w : World)
    (services : list string) (key' pid' : string) (fault : option Fault)
    (result : list string) (w' : World) :
  key <> "" -> constraints (db w) -> quiescent w = true ->
  fault_free schedule ->
  let r := hotelChanges key pid (written id names) now None None w in
  let final := run schedule (snd r) in
  fst r = inr Returned ->
  quiescent final = true ->
  filterService services key' pid' fault final = (inr result, w') ->
  (In id result <-> incl services names).
Proof.
  intros Hk Hcon Hq Hf r final _ Hqf E.
  assert (reconciling id names final) as R
    by (apply reconciling_run; [exact Hf | now apply reconciling_start]).
  destruct (reconciled R Hqf) as [_ Hnames].
  destruct (filterService_success _ _ _ _ _ E) as (Hs & Hk' & Hp' & ->).
  rewrite (filterService_ok final Hs Hk' Hp') in E. injection E as <- _.
  rewrite In_spread_Set. split.
  - intros Hin s Hin_s. apply in_map_iff in Hin.
    destruct Hin as [hotel [<- Hin]]. apply hotelData_sound in Hin.
    destruct Hin as (_ & _ & Hall). apply Hnames. now apply Hall.
  - intros Hincl.
    apply (@hotelData_complete services (db final)
             {| hotel_id := id; updated_at := now |} Hs).
    + unfold final, r. rewrite run_hotels.
      destruct (@hotelChanges_written key pid id names now None None w Hk
                  eq_refl eq_refl) as (_ & Hd & _).
      cbv zeta in Hd. rewrite Hd. cbn. apply hotels_upsert_In.
    + intros s Hin_s. cbn. apply Hnames. now apply Hincl.
Qed.

Lemma written_then_filtered_witness :
  In "H1" ["H1"] <-> incl ["spa"; "wifi"] ["wifi"; "spa"].
Proof.
  apply (@written_then_filtered "key" "project" "H1" ["wifi"; "spa"]
           "2024-09-09T00:00:00.000Z"
           [answer 0; answer 1; answer 1; answer 0; answer 1] H1_world
           ["spa"; "wifi"] "key" "project" None ["H1"]
           (snd (filterService ["spa"; "wifi"] "key" "project" None
                   (run [answer 0; answer 1; answer 1; answer 0; answer 1]
                        (snd (hotelChanges "key" "project"
                                (written "H1" ["wifi"; "spa"])
                                "2024-09-09T00:00:00.000Z" None None
                                H1_world))))));
    try discriminate; try reflexivity.
  - cbn. split; [|split].
    + repeat constructor; cbn; intuition; discriminate.
    + repeat constructor; cbn; intuition; discriminate.
    + intros s [<-|[<-|[]]]; cbn; lia.
  - intros e He. repeat (destruct He as [<-|He]; [reflexivity|]). destruct He.
Defined.

(** ** One row per hotel *)

Lemma hotels_delete_keys (id : string) (d : Database) :
  NoDup (map hotel_id (hotels d)) ->
  NoDup (map hotel_id (hotels (do_hotels_delete id d))).
Proof.
  unfold do_hotels_delete. cbn [hotels with_hotels].
  induction (hotels d) as [|r rows IH]; cbn; [trivial|].
  intros N. apply NoDup_cons_iff in N. destruct N as [Hr N].
  destruct (negb (hotel_id r =? id)%string); cbn; [|now apply IH].
  apply NoDup_cons_iff. split; [|now apply IH].
  rewrite in_map_iff. intros (r' & E & Hr').
  apply filter_In in Hr'. apply Hr. rewrite <- E. apply in_map. tauto.
Qed.

Lemma hotels_upsert_keys (row : hotels_row) (d : Database) :
  NoDup (map hotel_id (hotels d)) ->
  NoDup (map hotel_id (hotels (do_hotels_upsert row d))).
Proof.
  intros N. unfold do_hotels_upsert. cbn.
  destruct (existsb _ (hotels d)) eqn:Ex.
  - rewrite map_map.
    erewrite map_ext; [exact N|]. intros r. cbn.
    destruct (String.eqb_spec (hotel_id r) (hotel_id row)); congruence.
  - rewrite map_app. cbn. apply NoDup_snoc; [exact N|].
    intros Hin. apply in_map_iff in Hin. destruct Hin as [r [E Hr]].
    apply not_true_iff_false in Ex. apply Ex. apply existsb_exists.
    exists r. split; [exact Hr|]. now apply String.eqb_eq.
Qed.

Lemma hotelChanges_hotels_keys (key pid : string) (event : FirestoreEvent)
    (now : Time) (fault1 fault2 : option Fault) (w : World) :
  NoDup (map hotel_id (hotels (db w))) ->
  NoDup (map hotel_id
             (hotels (db (snd (hotelChanges key pid event now fault1 fault2 w))))).
Proof.
  intros N.
  destruct event as [[change|] id]; [|exact N].
  destruct (String.eqb_spec key "") as [->|Hk]; [exact N|].
  rewrite hotelChanges_event. destruct (after change) as [[[names|]]|].
  - destruct (@hotelChanges_written_any key pid id names now fault1 fault2 w Hk)
      as (_ & _ & Hd & _).
    cbv zeta in Hd. rewrite Hd.
    destruct fault1 as [[?|?]|], fault2 as [[?|?]|];
      cbn [rejects unless_failed]; unfold do_hotels_services_delete;
      cbn [hotels with_hotels_services]; trivial;
      now apply hotels_upsert_keys.
  - destruct (@hotelChanges_unlisted key pid id now fault1 fault2 w Hk)
      as (_ & _ & Hd & _).
    cbv zeta in Hd. rewrite Hd.
    destruct fault1 as [[?|?]|], fault2 as [[?|?]|];
      cbn [rejects unless_failed]; unfold do_hotels_services_delete;
      cbn [hotels with_hotels_services]; trivial;
      now apply hotels_upsert_keys.
  - destruct (@hotelChanges_deleted key pid id now fault1 fault2 w Hk)
      as (_ & _ & Hd & _).
    cbv zeta in Hd. rewrite Hd.
    destruct fault1 as [[?|?]|], fault2 as [[?|?]|];
      cbn [rejects unless_failed]; unfold do_hotels_services_delete;
      cbn [hotels with_hotels_services]; trivial;
      now apply hotels_delete_keys.
Qed.

(** X18.  However often documents are written and deleted, [hotels] keeps
    one row per hotel at most: if the hotel ids of the table are distinct
    before an event, they are distinct after its handling and after any
    answers of the store; and after a write whose upsert succeeded, the
    one row of the hotel carries the time of that write. *)
Theorem hotels_one_row_per_hotel (key pid : string) (event : FirestoreEvent)
    (now : Time) (fault1 fault2 : option Fault) (schedule : list Event)
    (w : World) :
  NoDup (map hotel_id (hotels (db w))) ->
  let final :=
    run schedule (snd (hotelChanges key pid event now fault1 fault2 w)) in
  NoDup (map hotel_id (hotels (db final)))
  /\ (key <> "" -> fault1 = None ->
      (exists change document,
         event_data event = Some change /\ after change = Some document) ->
      forall r, In r (hotels (db final)) ->
        hotel_id r = params_hotelId event ->
        r = {| hotel_id := params_hotelId event; updated_at := now |}).
Proof.
  intros N final.
  assert (NoDup (map hotel_id (hotels (db final)))) as N'
    by (unfold final; rewrite run_hotels; now apply hotelChanges_hotels_keys).
  split; [exact N'|].
  intros Hk -> (change & document & Ed & Ea) r Hr Hid.
  apply (NoDup_map_eq hotel_id _ _ _ N' Hr); [|exact Hid].
  unfold final. rewrite run_hotels.
  destruct event as [data id]. cbn [event_data params_hotelId] in *.
  subst data.
  rewrite hotelChanges_event, Ea. destruct document as [[names|]].
  - destruct (@hotelChanges_written_any key pid id names now None fault2 w Hk)
      as (_ & _ & Hd & _).
    cbv zeta in Hd. rewrite Hd. cbn [rejects].
    destruct fault2 as [[?|?]|]; cbn [unless_failed];
      unfold do_hotels_services_delete; cbn [hotels with_hotels_services];
      apply hotels_upsert_In.
  - destruct (@hotelChanges_unlisted key pid id now None fault2 w Hk)
      as (_ & _ & Hd & _).
    cbv zeta in Hd. rewrite Hd. cbn [rejects].
    destruct fault2 as [[?|?]|]; cbn [unless_failed];
      unfold do_hotels_services_delete; cbn [hotels with_hotels_services];
      apply hotels_upsert_In.
Qed.

Lemma hotels_one_row_per_hotel_witness :
  let final :=
    run [answer 0; answer 0]
        (snd (hotelChanges "key" "project" (written "H1" ["wifi"])
                "2024-09-09T00:00:00.000Z" None None H1_H2_world)) in
  NoDup (map hotel_id (hotels (db final)))
  /\ forall r, In r (hotels (db final)) -> hotel_id r = "H1" ->
       r = {| hotel_id := "H1"; updated_at := "2024-09-09T00:00:00.000Z" |}.
Proof.
  destruct (@hotels_one_row_per_hotel "key" "project" (written "H1" ["wifi"])
              "2024-09-09T00:00:00.000Z" None None [answer 0; answer 0]
              H1_H2_world) as [N H].
  - repeat constructor; cbn; intuition; discriminate.
  - split; [exact N|]. apply H; try discriminate; try reflexivity.
    do 2 eexists. split; reflexivity.
Defined.

(** ** Failures that leave no trace *)

Lemma transition_keeps_rows (now : Time) (d d' : Database)
    (fault : option Fault) (c c' : Chain) (tr : list TraceEvent)
    (a : hotels_services_row) :
  transition now d fault c d' c' tr -> In a (hotels_services d) ->
  exists a', In a' (hotels_services d')
             /\ hs_hotel_id a' = hs_hotel_id a
             /\ hs_service_id a' = hs_service_id a.
Proof.
  intros T Ha. destruct T; try (exists a; now repeat split).
  - match goal with H : existsb _ _ = false |- _ =>
      destruct (services_insert_new _ _ H) as [_ ->] end.
    exists a. now repeat split.
  - now apply upsert_keeps.
Qed.

Lemma run_keeps_rows (schedule : list Event) (w : World)
    (a : hotels_services_row) :
  In a (hotels_services (db w)) ->
  exists a', In a' (hotels_services (db (run schedule w)))
             /\ hs_hotel_id a' = hs_hotel_id a
             /\ hs_service_id a' = hs_service_id a.
Proof.
  revert w a. induction schedule as [|e rest IH]; intros w a Ha.
  - exists a. now repeat split.
  - rewrite run_cons.
    assert (exists a1, In a1 (hotels_services (db (step e w)))
                       /\ hs_hotel_id a1 = hs_hotel_id a
                       /\ hs_service_id a1 = hs_service_id a)
      as (a1 & Ha1 & E1 & E2).
    { destruct (nth_error (chains w) (ev_chain e)) as [c|] eqn:Hi.
      - destruct (step_transition e w Hi) as (d' & c' & tr & T & ->). cbn.
        eapply transition_keeps_rows; eassumption.
      - rewrite step_idle by assumption. exists a. now repeat split. }
    destruct (IH _ _ Ha1) as (a' & Ha' & E1' & E2').
    exists a'. repeat split; congruence.
Qed.

(** X19.  A failed delete leaves stale associations.  When the store
    answers the delete of the hotel's associations with an error while a
    written document is handled, the handler goes on, and every
    association there was before (of this hotel as of any other) is still
    there when the chains have done their work, whatever the document
    lists: no step of a chain removes an association. *)
Theorem failed_delete_keeps_associations (key pid id : string)
    (names : list string) (now : Time) (fault1 : option Fault)
    (e : PostgrestError) (schedule : list Event) (w : World)
    (a : hotels_services_row) :
  key <> "" -> rejects fault1 = false ->
  In a (hotels_services (db w)) ->
  exists a',
    In a' (hotels_services
             (db (run schedule
                      (snd (hotelChanges key pid (written id names) now fault1
                              (Some (ErrorResult e)) w)))))
    /\ hs_hotel_id a' = hs_hotel_id a
    /\ hs_service_id a' = hs_service_id a.
Proof.
  intros Hk Hr Ha. apply run_keeps_rows.
  destruct (@hotelChanges_written_any key pid id names now fault1
              (Some (ErrorResult e)) w Hk) as (_ & _ & Hd & _).
  cbv zeta in Hd. rewrite Hd, Hr. cbn [unless_failed].
  destruct fault1 as [[?|?]|]; exact Ha.
Qed.

Lemma failed_delete_keeps_associations_witness :
  exists a',
    In a' (hotels_services
             (db (run [answer 0; answer 0; answer 0]
                      (snd (hotelChanges "key" "project" (written "H1" ["spa"])
                              "2024-09-09T00:00:00.000Z" None
                              (Some (ErrorResult timeout_error)) H1_world)))))
    /\ hs_hotel_id a' = "H1" /\ hs_service_id a' = 2.
Proof.
  apply (@failed_delete_keeps_associations "key" "project" "H1" ["spa"]
           "2024-09-09T00:00:00.000Z" None timeout_error
           [answer 0; answer 0; answer 0] H1_world
           {| hs_hotel_id := "H1"; hs_service_id := 2;
              hs_updated_at := "2024-01-01T00:00:00.000Z" |}).
  - discriminate.
  - reflexivity.
  - cbn. right. left. reflexivity.
Defined.

(** X20.  The handling of an event adds at most one entry to the log,
    and none at all when the key is set, no call rejects and the document
    written, if any, has its field [services]: errors that the store
    returns in its answers, to the handler or to the chains, are never
    logged. *)
Theorem hotelChanges_log (key pid : string) (event : FirestoreEvent)
    (now : Time) (fault1 fault2 : option Fault) (schedule : list Event)
    (w : World) :
  exists entries,
    log (run schedule (snd (hotelChanges key pid event now fault1 fault2 w)))
    = log w ++ entries
    /\ (length entries <= 1)%nat
    /\ (key <> "" -> rejects fault1 = false -> rejects fault2 = false ->
        lists_services event = true ->
        entries = []).
Proof.
  rewrite log_run.
  destruct event as [[change|] id];
    [|exists []; cbn; rewrite app_nil_r; auto].
  destruct (String.eqb_spec key "") as [->|Hk].
  - eexists. split; [reflexivity|]. split; [cbn; lia|]. congruence.
  - rewrite hotelChanges_event. unfold lists_services. cbn [event_data].
    destruct change as [bef [[[names|]]|]]; cbn [after].
    + destruct (@hotelChanges_written_any key pid id names now fault1 fault2 w Hk)
        as (_ & _ & _ & _ & Hl).
      cbv zeta in Hl. eexists. split; [exact Hl|].
      destruct fault1 as [[?|?]|], fault2 as [[?|?]|]; cbn;
        split; try lia; try reflexivity; intros; discriminate.
    + destruct (@hotelChanges_unlisted key pid id now fault1 fault2 w Hk)
        as (_ & _ & _ & _ & exn & Hl).
      cbv zeta in Hl. eexists. split; [exact Hl|].
      split; [cbn; lia|]. intros; discriminate.
    + destruct (@hotelChanges_deleted key pid id now fault1 fault2 w Hk)
        as (_ & _ & _ & Hl).
      cbv zeta in Hl. eexists. split; [exact Hl|].
      destruct fault1 as [[?|?]|], fault2 as [[?|?]|]; cbn;
        split; try lia; try reflexivity; intros; discriminate.
Qed.

Lemma hotelChanges_log_witness :
  exists entries,
    log (run [answer_with 0 (Some (ErrorResult timeout_error));
              answer_with 0 (Some (ErrorResult timeout_error))]
             (snd (hotelChanges "key" "project" (written "H1" ["spa"])
                     "2024-09-09T00:00:00.000Z"
                     (Some (ErrorResult timeout_error))
                     (Some (ErrorResult timeout_error)) H1_world)))
    = log H1_world ++ entries
    /\ entries = [].
Proof.
  destruct (@hotelChanges_log "key" "project" (written "H1" ["spa"])
              "2024-09-09T00:00:00.000Z" (Some (ErrorResult timeout_error))
              (Some (ErrorResult timeout_error))
              [answer_with 0 (Some (ErrorResult timeout_error));
               answer_with 0 (Some (ErrorResult timeout_error))] H1_world)
    as (entries & E & _ & Hnone).
  exists entries. split; [exact E|].
  apply Hnone; [discriminate | reflexivity | reflexivity | reflexivity].
Defined.
